(** * Hawala dashboard: the risk metrics of [app.py] and [multihop_backend.py]

    A shallow embedding of the two entry points of the repository:

    - [app.py], the dashboard script: builds a [networkx.DiGraph] from the
      cleaned ledger and computes the multi-hop, circular, mirrored and
      corridor rates and their weighted sum;
    - [multihop_backend.py], [detect_suspicious_multihop_transfers]: the
      time-windowed multi-hop detector.

    Conventions of the embedding.

    - The cleaned data frame is the list of its rows, in order.
    - Account codes are strings, timestamps are integers (nanoseconds since
      the epoch, the value a pandas [Timestamp] carries), amounts are exact
      rationals.
    - A rate is an exact rational: the scripts obtain every rate by Python's
      true division of two small integers.
    - A Python exception is a value of [result]; the only exception the
      modelled statements can raise is [ZeroDivisionError].
    - [Nx] models the calls into networkx and [Pd] the calls into pandas,
      from the documented behaviour of the two libraries. *)

From Stdlib Require Import QArith Qround Lqa Sorting.Sorted.
From stdpp Require Import base option list sorting gmap strings pretty.

(* stdpp's solvers try to clear hypotheses that may be absent. *)
Set Warnings "-clear-no-such-hyp".

Close Scope Q_scope.
Open Scope nat_scope.

(** ** Exceptions *)

Inductive exn : Type :=
  | ZeroDivisionError.

Inductive result (A : Type) : Type :=
  | Ok (a : A)
  | Raise (e : exn).
Arguments Ok {A} a.
Arguments Raise {A} e.

#[global] Instance result_ret : MRet result := @Ok.
#[global] Instance result_bind : MBind result := λ A B f m,
  match m with
  | Ok a => f a
  | Raise e => Raise e
  end.

(** [n / d] on Python integers: true division, raising on a zero divisor. *)
Definition ratio (n d : nat) : Q := Z.of_nat n # Pos.of_nat d.

Definition py_div (n d : nat) : result Q :=
  if decide (d = 0) then Raise ZeroDivisionError else Ok (ratio n d).

(** ** The ledger *)

(** An account code. *)
Abbreviation Code := string.
(** A timestamp, in nanoseconds since the epoch. *)
Abbreviation Timestamp := Z.

(** One row of the cleaned frame; the fields are the four columns the scripts
    read ([cc1 lcu amount] is spelled [cc1_lcu_amount]). *)
Record Row : Type := mkRow {
  source_code : Code;
  destination_code : Code;
  cc1_lcu_amount : Q;
  date : Timestamp
}.

(** The cleaned frame: its rows, in order. *)
Abbreviation DataFrame := (list Row).

(** ** networkx *)

Module Nx.

(** The attribute dictionary of an edge. [app.py] stores [amount] only,
    [multihop_backend.py] stores [amount] and [date]; a key that was never
    stored is [None]. *)
Record EdgeData : Type := mkEdgeData {
  amount : option Q;
  date : option Timestamp
}.

(** [datadict.update(attr)]: the keys given by the call overwrite. *)
Definition update (old new : EdgeData) : EdgeData :=
  {| amount := match amount new with Some a => Some a | None => amount old end;
     date := match date new with Some d => Some d | None => date old end |}.

(** A [DiGraph]: its nodes in insertion order, and one slot per ordered pair
    of nodes, in insertion order, holding the attribute dictionary. *)
Record DiGraph : Type := mkDiGraph {
  nodes : list Code;
  edges : list (Code * Code * EdgeData)
}.

Definition empty : DiGraph := {| nodes := []; edges := [] |}.

Definition add_node (u : Code) (ns : list Code) : list Code :=
  if decide (u ∈ ns) then ns else ns ++ [u].

(** Stores [attr] in the slot of [(u, v)]; an existing slot keeps its
    position and has its dictionary updated. *)
Fixpoint set_edge (u v : Code) (attr : EdgeData)
    (es : list (Code * Code * EdgeData)) : list (Code * Code * EdgeData) :=
  match es with
  | [] => [(u, v, attr)]
  | (u', v', d) :: es' =>
      if decide ((u', v') = (u, v)) then (u', v', update d attr) :: es'
      else (u', v', d) :: set_edge u v attr es'
  end.

Definition add_edge (u v : Code) (attr : EdgeData) (g : DiGraph) : DiGraph :=
  {| nodes := add_node v (add_node u (nodes g));
     edges := set_edge u v attr (edges g) |}.

Definition number_of_edges (g : DiGraph) : nat := length (edges g).

Definition edge_pairs (g : DiGraph) : list (Code * Code) := (edges g).*1.

Definition has_edge (g : DiGraph) (u v : Code) : Prop := (u, v) ∈ edge_pairs g.

#[global] Instance has_edge_dec g u v : Decision (has_edge g u v).
Proof. unfold has_edge. apply _. Defined.

Fixpoint get_edge_data (g_edges : list (Code * Code * EdgeData)) (u v : Code)
    : option EdgeData :=
  match g_edges with
  | [] => None
  | (u', v', d) :: es =>
      if decide ((u', v') = (u, v)) then Some d else get_edge_data es u v
  end.

(** The successors of [u], in the order their edges were first added. *)
Definition successors (g : DiGraph) (u : Code) : list Code :=
  omap (λ e, if decide (e.1 = u) then Some e.2 else None) (edge_pairs g).

(** *** Shortest paths

    [shortest_path(G, source, target)] without weights is a breadth-first
    search; it returns the nodes of one path with the fewest edges, or
    raises [NetworkXNoPath] ([None] here). Which of several equally short
    paths is returned is not part of the library's contract; the search
    below takes successors in insertion order.

    A frontier entry is a path from the source, stored backwards. *)

Fixpoint expand (g : DiGraph) (seen : list Code) (frontier : list (list Code))
    : list (list Code) :=
  match frontier with
  | [] => []
  | p :: ps =>
      let new := filter (λ w, w ∉ seen) (successors g (default ""%string (head p))) in
      ((λ w, w :: p) <$> new) ++ expand g (seen ++ new) ps
  end.

Fixpoint bfs (fuel : nat) (g : DiGraph) (target : Code) (seen : list Code)
    (frontier : list (list Code)) : option (list Code) :=
  match list_find (λ p, head p = Some target) frontier with
  | Some (_, p) => Some (reverse p)
  | None =>
      match fuel with
      | 0 => None
      | S fuel' =>
          let next := expand g seen frontier in
          match next with
          | [] => None
          | _ => bfs fuel' g target (seen ++ omap head next) next
          end
      end
  end.

Definition shortest_path (g : DiGraph) (source target : Code) : option (list Code) :=
  bfs (length (nodes g)) g target [source] [[source]].

(** [shortest_path_length]: the number of edges of a shortest path. *)
Definition shortest_path_length (g : DiGraph) (source target : Code) : option nat :=
  p ← shortest_path g source target; Some (length p - 1).

(** *** Simple cycles

    [simple_cycles(G)] yields every elementary circuit of the graph once, as
    the list of its nodes; a self-loop is the circuit [[v]]. The library
    does not fix the order of the circuits nor the node a circuit starts at.
    Here a circuit starts at its node that comes first in insertion order:
    the circuits through [s] are searched among [s] and the nodes after it.

    [closing_walks n s allowed cur visited] lists the simple paths that
    start at [cur], stay inside [allowed], avoid [visited], have at most [n]
    edges, and end at a node with an edge back to [s]. *)

Fixpoint closing_walks (g : DiGraph) (n : nat) (s : Code) (allowed : list Code)
    (cur : Code) (visited : list Code) : list (list Code) :=
  (if decide (has_edge g cur s) then [[cur]] else []) ++
  match n with
  | 0 => []
  | S n' =>
      w ← successors g cur;
      if decide (w ∈ allowed ∧ w ∉ visited)
      then (cons cur) <$> closing_walks g n' s allowed w (w :: visited)
      else []
  end.

Fixpoint cycles_among (g : DiGraph) (remaining : list Code) : list (list Code) :=
  match remaining with
  | [] => []
  | s :: rest =>
      closing_walks g (length rest) s remaining s [s] ++ cycles_among g rest
  end.

Definition simple_cycles (g : DiGraph) : list (list Code) :=
  cycles_among g (nodes g).

End Nx.

(** ** pandas *)

Module Pd.

(** Round half to even, to an integer ([numpy.rint]). *)
Definition rint (x : Q) : Z :=
  let f := Qfloor x in
  match (x - inject_Z f ?= 1 # 2)%Q with
  | Lt => f
  | Gt => (f + 1)%Z
  | Eq => if Z.even f then f else (f + 1)%Z
  end.

(** [Series.round(decimals)], element-wise: scale by the power of ten, round
    half to even, scale back. *)
Definition round (decimals : Z) (x : Q) : Q :=
  let scale := (10 ^ Z.abs decimals)%Z in
  if decide (0 ≤ decimals)%Z
  then Qred (inject_Z (rint (x * inject_Z scale)) / inject_Z scale)
  else inject_Z (rint (x / inject_Z scale) * scale).

#[global] Instance Q_eq_dec : EqDecision Q.
Proof. solve_decision. Defined.

Section groupby.
Context {K : Type} `{EqDecision K}.
Variable key : Row → K.

(** [df[col].nunique()]. *)
Definition unique (df : DataFrame) : list K := remove_dups (key <$> df).
Definition nunique (df : DataFrame) : nat := length (unique df).

(** The rows of the group of [k], in frame order. *)
Definition get_group (df : DataFrame) (k : K) : DataFrame :=
  filter (λ r, key r = k) df.

(** [df.groupby(col)]: one group per distinct key. pandas orders the groups
    by key; they are kept here in order of first occurrence, the scripts
    use only the sizes of the groups. *)
Definition groupby (df : DataFrame) : list (K * DataFrame) :=
  (λ k, (k, get_group df k)) <$> unique df.

(** [groupby(col).filter(func)]: the rows of the frame whose group
    satisfies [func], in frame order. *)
Definition groupby_filter (func : DataFrame → bool) (df : DataFrame) : DataFrame :=
  filter (λ r, func (get_group df (key r)) = true) df.

(** [groupby(col).size()]. *)
Definition groupby_size (df : DataFrame) : list (K * nat) :=
  (λ kg, (kg.1, length kg.2)) <$> groupby df.
End groupby.

(** [Series.sort_values(ascending=False)] on a series of counts. *)
Definition count_ge {K : Type} (a b : K * nat) : Prop := b.2 ≤ a.2.

#[global] Instance count_ge_dec {K : Type} (a b : K * nat) : Decision (count_ge a b).
Proof. unfold count_ge. apply _. Defined.

Definition sort_values_desc {K : Type} (s : list (K * nat)) : list (K * nat) :=
  merge_sort count_ge s.

Definition head {A : Type} (n : nat) (s : list A) : list A := take n s.

(** [Timedelta.days]: whole days, rounded towards minus infinity. *)
Definition ns_per_day : Z := 86400000000000.
Definition days (delta : Z) : Z := (delta / ns_per_day)%Z.

(** The civil date (year, month, day) of a day number counted from
    1970-01-01, in the proleptic Gregorian calendar. *)
Definition civil_from_days (z : Z) : Z * Z * Z :=
  let z := (z + 719468)%Z in
  let era := (z / 146097)%Z in
  let doe := (z - era * 146097)%Z in
  let yoe := ((doe - doe / 1460 + doe / 36524 - doe / 146096) / 365)%Z in
  let doy := (doe - (365 * yoe + yoe / 4 - yoe / 100))%Z in
  let mp := ((5 * doy + 2) / 153)%Z in
  let d := (doy - (153 * mp + 2) / 5 + 1)%Z in
  let m := (if decide (mp < 10)%Z then mp + 3 else mp - 9)%Z in
  let y := (yoe + era * 400 + (if decide (m ≤ 2)%Z then 1 else 0))%Z in
  (y, m, d).

(** [Series.dt.to_period("M")]: the year and the month of a timestamp. *)
Definition to_period_M (ts : Timestamp) : Z * Z :=
  let '(y, m, _) := civil_from_days (ts / ns_per_day) in (y, m).

Fixpoint zeros (n : nat) : string :=
  match n with
  | 0 => ""
  | S n' => ("0" +:+ zeros n')%string
  end.

(** A number written with at least [width] digits. *)
Definition zfill (width : nat) (n : Z) : string :=
  let s := pretty n in (zeros (width - String.length s) +:+ s)%string.

(** [str] of a monthly period: ["YYYY-MM"]. *)
Definition period_str (p : Z * Z) : string :=
  (zfill 4 p.1 +:+ "-" +:+ zfill 2 p.2)%string.

(** The order in which [groupby] delivers string keys. *)
Definition key_le {A : Type} (a b : string * A) : Prop := String.leb a.1 b.1 = true.

#[global] Instance key_le_dec {A : Type} (a b : string * A) : Decision (key_le a b).
Proof. unfold key_le. apply _. Defined.

(** A series indexed by strings, in the order of its index. *)
Definition sort_index {A : Type} (s : list (string * A)) : list (string * A) :=
  merge_sort key_le s.

End Pd.

(** Python's [max] and [min] on a list of timestamps, from a first element. *)
Definition py_max (x : Z) (xs : list Z) : Z := foldl Z.max x xs.
Definition py_min (x : Z) (xs : list Z) : Z := foldl Z.min x xs.

(** ** app.py *)

Module App.

Definition G (df : DataFrame) : Nx.DiGraph :=
  foldl (λ g row,
           Nx.add_edge (source_code row) (destination_code row)
             {| Nx.amount := Some (cc1_lcu_amount row); Nx.date := None |} g)
        Nx.empty df.

Definition total_edges (df : DataFrame) : nat := Nx.number_of_edges (G df).

(** Multi-hop detection; a pair without a path is skipped by the [except]. *)
Definition multi_hop_pairs (df : DataFrame) : gset (Code * Code) :=
  list_to_set (
    s ← Nx.nodes (G df);
    t ← Nx.nodes (G df);
    if decide (s ≠ t) then
      match Nx.shortest_path_length (G df) s t with
      | Some n => if decide (3 ≤ n) then [(s, t)] else []
      | None => []
      end
    else []).

Definition multi_hop_rate (df : DataFrame) : result Q :=
  if decide (total_edges df ≠ 0)
  then py_div (size (multi_hop_pairs df)) (total_edges df)
  else Ok 0%Q.

(** Circular routing detection. *)
Definition cycles (df : DataFrame) : list (list Code) := Nx.simple_cycles (G df).

(** The pairs [(c[i], c[(i + 1) % len(c)])] for [i] in [range(len(c))]. *)
Definition cycle_pairs (c : list Code) : list (Code * Code) :=
  (λ i, (c !!! i, c !!! ((i + 1) mod length c))) <$> seq 0 (length c).

Definition cycle_edges (df : DataFrame) : gset (Code * Code) :=
  list_to_set (c ← cycles df; cycle_pairs c).

Definition circular_rate (df : DataFrame) : result Q :=
  if decide (total_edges df ≠ 0)
  then py_div (size (cycle_edges df)) (total_edges df)
  else Ok 0%Q.

(** Mirrored flow detection. *)
Definition rounded_amount (row : Row) : Q := Pd.round (-2) (cc1_lcu_amount row).

Definition mirrored_df (df : DataFrame) : DataFrame :=
  Pd.groupby_filter rounded_amount (λ x, bool_decide (3 < length x)) df.

Definition mirrored_rate (df : DataFrame) : result Q :=
  py_div (length (mirrored_df df)) (length df).

(** Corridor analysis. *)
Definition corridor (row : Row) : string :=
  (source_code row +:+ " → " +:+ destination_code row)%string.

Definition corridor_counts (df : DataFrame) : list (string * nat) :=
  Pd.head 15 (Pd.sort_values_desc (Pd.groupby_size corridor df)).

Definition corridor_rate (df : DataFrame) : result Q :=
  py_div (length (corridor_counts df)) (Pd.nunique corridor df).

(** Time evolution. The two series are indexed by month, in the order of the
    index. *)
Definition month (row : Row) : string := Pd.period_str (Pd.to_period_M (date row)).

Definition monthly_volume (df : DataFrame) : list (string * nat) :=
  Pd.sort_index (Pd.groupby_size month df).

Definition monthly_corridors (df : DataFrame) : list (string * nat) :=
  Pd.sort_index ((λ kg, (kg.1, Pd.nunique corridor kg.2)) <$> Pd.groupby month df).

(** The final rate, and what the script computes in all. *)
Record Metrics : Type := mkMetrics {
  m_multi_hop_rate : Q;
  m_circular_rate : Q;
  m_mirrored_rate : Q;
  m_corridor_rate : Q;
  m_hawala_rate : Q
}.

Definition hawala_rate (multi_hop circular mirrored corridor : Q) : Q :=
  ((35 # 100) * multi_hop + (30 # 100) * circular
   + (20 # 100) * mirrored + (15 # 100) * corridor)%Q.

Definition main (df : DataFrame) : result Metrics :=
  mh ← multi_hop_rate df;
  ci ← circular_rate df;
  mi ← mirrored_rate df;
  co ← corridor_rate df;
  mret {| m_multi_hop_rate := mh; m_circular_rate := ci;
          m_mirrored_rate := mi; m_corridor_rate := co;
          m_hawala_rate := hawala_rate mh ci mi co |}.

End App.

(** ** multihop_backend.py *)

Module MultihopBackend.

Definition MIN_HOP_LENGTH : nat := 3.
Definition TIME_WINDOW_DAYS : Z := 7.

Definition G (df : DataFrame) : Nx.DiGraph :=
  foldl (λ g r,
           Nx.add_edge (source_code r) (destination_code r)
             {| Nx.amount := Some (cc1_lcu_amount r); Nx.date := Some (date r) |} g)
        Nx.empty df.

(** The dates collected along a path, one per edge that stores a date. *)
Definition edge_dates (g : Nx.DiGraph) (path : list Code) : list Timestamp :=
  i ← seq 0 (length path - 1);
  match Nx.get_edge_data (Nx.edges g) (path !!! i) (path !!! (i + 1)) with
  | Some edge_data =>
      match Nx.date edge_data with
      | Some d => [d]
      | None => []
      end
  | None => []
  end.

(** The temporal consistency check on the collected dates. *)
Definition within_window (dates : list Timestamp) : bool :=
  match dates with
  | [] => false
  | d :: ds => bool_decide (Pd.days (py_max d ds - py_min d ds) ≤ TIME_WINDOW_DAYS)%Z
  end.

Definition suspicious_paths (df : DataFrame) : list (list Code) :=
  src ← Nx.nodes (G df);
  dst ← Nx.nodes (G df);
  if decide (src = dst) then []
  else
    match Nx.shortest_path (G df) src dst with
    | None => []
    | Some path =>
        if decide (length path < MIN_HOP_LENGTH) then []
        else if within_window (edge_dates (G df) path) then [path]
        else []
    end.

Definition unique_suspicious_pairs (df : DataFrame) : gset (Code * Code) :=
  list_to_set ((λ p : list Code, (p !!! 0, p !!! (length p - 1))) <$> suspicious_paths df).

Definition total_transactions (df : DataFrame) : nat := Nx.number_of_edges (G df).

Definition suspicious_rate (df : DataFrame) : result Q :=
  if decide (0 < total_transactions df)
  then py_div (size (unique_suspicious_pairs df)) (total_transactions df)
  else Ok 0%Q.

Record Output : Type := mkOutput {
  o_total_transactions : nat;
  o_suspicious_multihop_paths : list (list Code);
  o_unique_suspicious_pairs : list (Code * Code);
  o_multihop_suspicion_rate : Q
}.

Definition detect_suspicious_multihop_transfers (df : DataFrame) : result Output :=
  rate ← suspicious_rate df;
  mret {| o_total_transactions := total_transactions df;
          o_suspicious_multihop_paths := suspicious_paths df;
          o_unique_suspicious_pairs := elements (unique_suspicious_pairs df);
          o_multihop_suspicion_rate := rate |}.

End MultihopBackend.

(** * Specification vocabulary *)

(** ** Graphs built from a frame *)

(** What every graph built by [add_edge] alone satisfies. *)
Record well_formed (g : Nx.DiGraph) : Prop := {
  wf_nodes : NoDup (Nx.nodes g);
  wf_edges : NoDup (Nx.edge_pairs g);
  wf_source : ∀ u v, Nx.has_edge g u v → u ∈ Nx.nodes g;
  wf_target : ∀ u v, Nx.has_edge g u v → v ∈ Nx.nodes g
}.

(** The graph both scripts build: one [add_edge] per row, in frame order. *)
Definition from_frame (attr : Row → Nx.EdgeData) (g : Nx.DiGraph) (df : DataFrame)
    : Nx.DiGraph :=
  foldl (λ g row, Nx.add_edge (source_code row) (destination_code row) (attr row) g) g df.

(** Some row of the frame transfers from [u] to [v]. *)
Definition connects (df : DataFrame) (u v : Code) : Prop :=
  ∃ row, row ∈ df ∧ source_code row = u ∧ destination_code row = v.

(** ** Walks and paths *)

(** A walk: a non-empty list of nodes, consecutive ones joined by an edge. *)
Inductive walk (g : Nx.DiGraph) : list Code → Prop :=
  | walk_one u : walk g [u]
  | walk_cons u v p : Nx.has_edge g u v → walk g (v :: p) → walk g (u :: v :: p).

(** A path from [s] to [t]. *)
Definition path_between (g : Nx.DiGraph) (s t : Code) (p : list Code) : Prop :=
  walk g p ∧ head p = Some s ∧ last p = Some t.

(** An entry of the search frontier: a path from [s], backwards. *)
Definition from_source (g : Nx.DiGraph) (s : Code) (q : list Code) : Prop :=
  walk g (reverse q) ∧ last q = Some s.

(** [t] is reached from [s] by a walk of [k] edges. *)
Inductive reach (g : Nx.DiGraph) (s : Code) : nat → Code → Prop :=
  | reach_O : reach g s 0 s
  | reach_S k u w : reach g s k u → Nx.has_edge g u w → reach g s (S k) w.

(** The state of the search after [k] rounds: the frontier holds one path of
    [k] edges to each node at distance [k] from [s] and to no other node, and
    [seen] holds the nodes at distance at most [k]. *)
Record bfs_inv (g : Nx.DiGraph) (s : Code) (k : nat) (seen : list Code)
    (frontier : list (list Code)) : Prop := {
  inv_paths : Forall (λ q, from_source g s q ∧ length q = S k) frontier;
  inv_seen : ∀ v, v ∈ seen ↔ ∃ j, j ≤ k ∧ reach g s j v;
  inv_heads : ∀ v, (∃ q, q ∈ frontier ∧ head q = Some v) ↔
                   reach g s k v ∧ ∀ j, j < k → ¬ reach g s j v;
  inv_NoDup : NoDup seen;
  inv_nodes : seen ⊆ Nx.nodes g;
  inv_count : k < length seen
}.

(** ** Simple cycles *)

(** A simple cycle, as the list of its nodes: the nodes are distinct,
    consecutive ones are joined by an edge, and an edge leads from the last
    node back to the first. A self-loop is the cycle of one node. *)
Definition simple_cycle (g : Nx.DiGraph) (c : list Code) : Prop :=
  NoDup c ∧ walk g c ∧
  ∃ a b, head c = Some a ∧ last c = Some b ∧ Nx.has_edge g b a.

(** The edge [(u, v)] lies on the cycle [c]: [v] follows [u] in the list, or
    [(u, v)] is the wrap-around edge from the last node to the first. *)
Definition on_cycle (c : list Code) (u v : Code) : Prop :=
  (∃ l1 l2, c = l1 ++ u :: v :: l2) ∨ (last c = Some u ∧ head c = Some v).

(** The same cycle, started at another of its nodes. *)
Definition rotation (c c' : list Code) : Prop :=
  ∃ l1 l2, c = l1 ++ l2 ∧ c' = l2 ++ l1.

(** Every edge of the graph stores a date. *)
Definition dated (es : list (Code * Code * Nx.EdgeData)) : Prop :=
  Forall (λ e, is_Some (Nx.date e.2)) es.

(** ** Mirrored clusters *)



(** ** Sample ledgers *)

(** A transfer of [a] from [s] to [t] at midnight of day [d]. *)
Definition tx (s t : Code) (a : Z) (d : Z) : Row :=
  {| source_code := s; destination_code := t; cc1_lcu_amount := inject_Z a;
     date := (d * Pd.ns_per_day)%Z |}.

Definition ring3 : DataFrame := [tx "A" "B" 10 1; tx "B" "C" 10 2; tx "C" "A" 10 3].
Definition chain3 : DataFrame := [tx "A" "B" 10 1; tx "B" "C" 10 2].
Definition self_loop : DataFrame := [tx "A" "A" 10 1].

(** The pair [A → B] transfers twice. *)
Definition repeat_chain : DataFrame :=
  [tx "A" "B" 10 1; tx "B" "C" 10 2; tx "A" "B" 10 3].

(** Two transfers seven days and twelve hours apart. *)
Definition late_chain : DataFrame :=
  [ {| source_code := "A"; destination_code := "B"; cc1_lcu_amount := 10;
       date := 0 |};
    {| source_code := "B"; destination_code := "C"; cc1_lcu_amount := 10;
       date := 7 * Pd.ns_per_day + 43200000000000 |} ].

(** One self-referencing transfer per account of [ns]. *)
Definition self_loops (ns : list Code) : DataFrame := (λ x, tx x x 10 1) <$> ns.

(** One transfer per pair of consecutive accounts of [ns], and one from the
    last back to the first. *)
Definition ring (ns : list Code) : DataFrame :=
  (λ e, tx e.1 e.2 10 1) <$> App.cycle_pairs ns.

(** One transfer from each account of [ns] to the next. *)
Definition chain (ns : list Code) : DataFrame :=
  (λ e, tx e.1 e.2 10 1) <$> zip ns (tail ns).

(** Transfers of the given amounts. *)
Definition amounts (l : list Z) : DataFrame := (λ a, tx "A" "B" a 1) <$> l.


(** The accounts ["0"], ["1"], ..., [n - 1]. *)
Definition accounts (n : nat) : list Code := pretty <$> seq 0 n.

(** ** Tactics *)

(** Decides a closed, decidable proposition by evaluation. *)
Ltac by_compute := apply (bool_decide_unpack _); vm_compute; exact I.

(** * Facts about the graph model *)

Section build.
Import Nx.

Lemma set_edge_pairs u v attr es :
  (set_edge u v attr es).*1 =
  if decide ((u, v) ∈ es.*1) then es.*1 else es.*1 ++ [(u, v)].
Proof.
  induction es as [|[[u' v'] d] es IH]; csimpl.
  - done.
  - destruct (decide ((u', v') = (u, v))) as [Heq|Hne]; csimpl.
    + rewrite decide_True; [done | rewrite Heq; left].
    + rewrite IH. destruct (decide ((u, v) ∈ es.*1)) as [Hin|Hnin].
      * rewrite decide_True; [done | by right].
      * rewrite decide_False; [done |].
        intros [?|?]%elem_of_cons; [congruence | done].
Qed.

Lemma has_edge_add_edge u v attr g a b :
  has_edge (add_edge u v attr g) a b ↔ (a, b) = (u, v) ∨ has_edge g a b.
Proof.
  unfold has_edge, edge_pairs, add_edge; simpl. rewrite set_edge_pairs.
  case_decide; [|rewrite elem_of_app, list_elem_of_singleton]; naive_solver.
Qed.

Lemma elem_of_add_node u ns a : a ∈ add_node u ns ↔ a = u ∨ a ∈ ns.
Proof.
  unfold add_node. case_decide; [|rewrite elem_of_app, list_elem_of_singleton];
    naive_solver.
Qed.

Lemma NoDup_add_node u ns : NoDup ns → NoDup (add_node u ns).
Proof.
  unfold add_node. intros Hnd. case_decide; [done|].
  apply NoDup_app. split_and!; [done | | apply NoDup_singleton].
  intros x Hx ->%list_elem_of_singleton. done.
Qed.

Lemma well_formed_empty : well_formed empty.
Proof.
  split; simpl; try apply NoDup_nil_2; intros u v H; by apply elem_of_nil in H.
Qed.

Lemma well_formed_add_edge u v attr g :
  well_formed g → well_formed (add_edge u v attr g).
Proof.
  intros [Hn He Hs Ht]. split.
  - simpl. by do 2 apply NoDup_add_node.
  - unfold edge_pairs; simpl. rewrite set_edge_pairs. case_decide; [done|].
    apply NoDup_app. split_and!; [done | | apply NoDup_singleton].
    intros x Hx ->%list_elem_of_singleton. done.
  - intros a b [[= -> ->]|H]%has_edge_add_edge; simpl;
      rewrite !elem_of_add_node; eauto.
  - intros a b [[= -> ->]|H]%has_edge_add_edge; simpl;
      rewrite !elem_of_add_node; eauto.
Qed.

Section from_frame.
Variable attr : Row → EdgeData.

Lemma from_frame_cons row df g :
  from_frame attr g (row :: df) =
  from_frame attr (add_edge (source_code row) (destination_code row) (attr row) g) df.
Proof. done. Qed.

Lemma well_formed_from_frame df g :
  well_formed g → well_formed (from_frame attr g df).
Proof.
  revert g. induction df as [|r df IH]; intros g Hg; [done|].
  apply IH. by apply well_formed_add_edge.
Qed.

Lemma has_edge_from_frame df g a b :
  has_edge (from_frame attr g df) a b ↔
  has_edge g a b ∨ ∃ row, row ∈ df ∧ source_code row = a ∧ destination_code row = b.
Proof.
  revert g. induction df as [|r df IH]; intros g.
  - split; [by left|]. intros [?|(row & ?%elem_of_nil & _)]; done.
  - rewrite from_frame_cons, IH, has_edge_add_edge. split.
    + intros [[[= -> ->]|?]|(row & ? & ? & ?)]; [right|by left|right].
      * exists r. split_and!; [left|done..].
      * exists row. split_and!; [by right|done..].
    + intros [?|(row & [->|?]%elem_of_cons & <- & <-)]; [by left; right|by left; left|].
      right. by exists row.
Qed.
End from_frame.

Lemma elem_of_successors g u w : w ∈ successors g u ↔ has_edge g u w.
Proof.
  unfold successors, has_edge. rewrite list_elem_of_omap. split.
  - intros ([a b] & Hin & Hif). simpl in Hif. case_decide; naive_solver.
  - intros Hin. exists (u, w). split; [done|]. simpl. by rewrite decide_True.
Qed.

Lemma NoDup_successors g u : NoDup (edge_pairs g) → NoDup (successors g u).
Proof.
  unfold successors. generalize (edge_pairs g) as es.
  induction es as [|[a b] es IH]; intros Hnd; simpl; [apply NoDup_nil_2|].
  apply NoDup_cons in Hnd as [Hnin Hnd]. case_decide as Ha; simpl in *; [|by apply IH].
  subst a. apply NoDup_cons. split; [|by apply IH].
  rewrite list_elem_of_omap. intros ([a' b'] & Hin & Hif). simpl in Hif.
  case_decide; naive_solver.
Qed.

Lemma get_edge_data_is_Some es u v :
  is_Some (get_edge_data es u v) ↔ (u, v) ∈ es.*1.
Proof.
  induction es as [|[[u' v'] d] es IH]; simpl.
  - split; [by intros [? ?] | by intros ?%elem_of_nil].
  - case_decide as Heq.
    + split; [intros _; rewrite Heq; left | by eauto].
    + rewrite IH. split; [by right|]. intros [?|?]%elem_of_cons; [congruence | done].
Qed.
End build.

Lemma App_G_from_frame df :
  App.G df = from_frame (λ row, {| Nx.amount := Some (cc1_lcu_amount row); Nx.date := None |})
               Nx.empty df.
Proof. done. Qed.

Lemma Backend_G_from_frame df :
  MultihopBackend.G df =
  from_frame (λ r, {| Nx.amount := Some (cc1_lcu_amount r); Nx.date := Some (date r) |})
    Nx.empty df.
Proof. done. Qed.

Lemma App_G_well_formed df : well_formed (App.G df).
Proof. apply well_formed_from_frame, well_formed_empty. Qed.

Lemma Backend_G_well_formed df : well_formed (MultihopBackend.G df).
Proof. apply well_formed_from_frame, well_formed_empty. Qed.

(** An edge of the graph is a pair of accounts some row connects. *)
Lemma App_has_edge df u v : Nx.has_edge (App.G df) u v ↔ connects df u v.
Proof.
  rewrite App_G_from_frame, has_edge_from_frame. unfold connects. split; [|by right].
  intros [H|H]; [by apply elem_of_nil in H | done].
Qed.

Lemma Backend_has_edge df u v : Nx.has_edge (MultihopBackend.G df) u v ↔ connects df u v.
Proof.
  rewrite Backend_G_from_frame, has_edge_from_frame. unfold connects. split; [|by right].
  intros [H|H]; [by apply elem_of_nil in H | done].
Qed.

(** ** Walks *)

Section walks.
Variable g : Nx.DiGraph.

Lemma walk_nonempty p : walk g p → p ≠ [].
Proof. by destruct 1. Qed.

Lemma walk_tail u p : walk g (u :: p) → p ≠ [] → walk g p.
Proof. by inversion 1. Qed.

Lemma walk_snoc p u w :
  walk g p → last p = Some u → Nx.has_edge g u w → walk g (p ++ [w]).
Proof.
  induction 1 as [a|a b p Hab Hp IH]; intros Hlast He; simpl in *.
  - injection Hlast as ->. by repeat constructor.
  - constructor; [done|]. by apply IH.
Qed.

Lemma walk_app_inv_l p q : walk g (p ++ q) → p ≠ [] → walk g p.
Proof.
  induction p as [|a p IH]; intros Hw Hp; [done|].
  destruct p as [|b p]; [constructor|].
  inversion Hw; subst. constructor; [done|]. by apply IH.
Qed.

Lemma walk_app_inv_edge p q u v :
  walk g (p ++ q) → last p = Some u → head q = Some v → Nx.has_edge g u v.
Proof.
  induction p as [|a p IH]; intros Hw Hlast Hhead; [done|].
  destruct p as [|b p].
  - injection Hlast as ->. destruct q as [|v' q]; [done|].
    injection Hhead as ->. by inversion Hw.
  - apply IH; [by inversion Hw | done..].
Qed.

Lemma walk_lookup p i u v :
  walk g p → p !! i = Some u → p !! S i = Some v → Nx.has_edge g u v.
Proof.
  intros Hw. revert i. induction Hw as [a|a b p Hab Hp IH]; intros i Hi HSi.
  - by destruct i.
  - destruct i as [|i]; simpl in *; [congruence|]. by eapply IH.
Qed.
End walks.

(** ** The breadth-first search returns a path of the graph *)

Section bfs.
Variable g : Nx.DiGraph.
Variable s : Code.

Lemma from_source_start : from_source g s [s].
Proof. split; [constructor | done]. Qed.

Lemma from_source_step u q w :
  from_source g s (u :: q) → Nx.has_edge g u w → from_source g s (w :: u :: q).
Proof.
  intros [Hw Hl] He. split; [|done].
  rewrite reverse_cons. apply (walk_snoc _ _ u); [done| |done].
  by rewrite last_reverse.
Qed.

Lemma expand_from_source frontier seen :
  Forall (from_source g s) frontier → Forall (from_source g s) (Nx.expand g seen frontier).
Proof.
  revert seen. induction frontier as [|q qs IH]; intros seen Hall; [done|].
  apply Forall_cons in Hall as [Hq Hqs]. simpl.
  apply Forall_app. split; [|by apply IH].
  apply Forall_fmap, Forall_forall. intros w [_ Hw%elem_of_successors]%list_elem_of_filter.
  destruct q as [|u q]; [by destruct Hq|]. by apply from_source_step.
Qed.

Lemma bfs_sound fuel t seen frontier p :
  Forall (from_source g s) frontier →
  Nx.bfs fuel g t seen frontier = Some p → path_between g s t p.
Proof.
  revert seen frontier. induction fuel as [|fuel IH]; intros seen frontier Hall; simpl.
  - destruct (list_find _ frontier) as [[i q]|] eqn:Hfind; [|done].
    intros [= <-]. apply list_find_Some in Hfind as (Hq & Hhd & _).
    apply list_elem_of_lookup_2 in Hq.
    destruct (proj1 (Forall_forall _ _) Hall q Hq) as [Hw Hl].
    split_and!; [done | by rewrite head_reverse | by rewrite last_reverse].
  - destruct (list_find _ frontier) as [[i q]|] eqn:Hfind.
    + intros [= <-]. apply list_find_Some in Hfind as (Hq & Hhd & _).
      apply list_elem_of_lookup_2 in Hq.
      destruct (proj1 (Forall_forall _ _) Hall q Hq) as [Hw Hl].
      split_and!; [done | by rewrite head_reverse | by rewrite last_reverse].
    + pose proof (expand_from_source frontier seen Hall) as Hnext.
      destruct (Nx.expand g seen frontier) as [|q' next] eqn:Hexp; [done|].
      by apply IH.
Qed.
End bfs.

Lemma shortest_path_sound g s t p :
  Nx.shortest_path g s t = Some p → path_between g s t p.
Proof.
  apply bfs_sound. apply Forall_singleton, from_source_start.
Qed.

(** ** The breadth-first search finds a shortest path *)

Section bfs_complete.
Variable g : Nx.DiGraph.
Variable s : Code.
Hypothesis g_wf : well_formed g.

Lemma from_source_inv w u q :
  from_source g s (w :: u :: q) → from_source g s (u :: q) ∧ Nx.has_edge g u w.
Proof.
  intros [Hw Hl]. rewrite reverse_cons in Hw. split; [split; [|done]|].
  - apply (walk_app_inv_l g _ [w]); [done|]. rewrite reverse_cons. by destruct (reverse q).
  - apply (walk_app_inv_edge g (reverse (u :: q)) [w]); [done| |done].
    by rewrite last_reverse.
Qed.

Lemma from_source_reach q :
  from_source g s q → ∃ v, head q = Some v ∧ reach g s (length q - 1) v.
Proof.
  induction q as [|w q IH]; intros Hq; [by destruct Hq|].
  exists w. split; [done|]. destruct q as [|u q].
  - destruct Hq as [_ [= ->]]. constructor.
  - apply from_source_inv in Hq as [Hq He].
    destruct (IH Hq) as (v & [= <-] & Hr). simpl in *.
    rewrite Nat.sub_0_r in Hr. by apply (reach_S g s _ u).
Qed.

Lemma walk_reach p k u t :
  reach g s k u → walk g p → head p = Some u → last p = Some t →
  reach g s (k + length p - 1) t.
Proof.
  intros Hr Hw. revert k u Hr. induction Hw as [a|a b p Hab Hp IH]; intros k u Hr Hh Hl.
  - injection Hh as <-. injection Hl as <-. simpl.
    by replace (k + 1 - 1) with k by lia.
  - injection Hh as <-.
    replace (k + length (a :: b :: p) - 1) with (S k + length (b :: p) - 1)
      by (simpl; lia).
    apply (IH (S k) b); [by apply (reach_S g s _ a) | done | done].
Qed.

Lemma path_between_reach t p : path_between g s t p → reach g s (length p - 1) t.
Proof.
  intros (Hw & Hh & Hl). apply (walk_reach p 0 s); [constructor | done..].
Qed.

(** A walk that leaves a set of nodes has an edge that leaves it. *)
Lemma reach_crossing (seen : list Code) k t :
  reach g s k t → s ∈ seen → t ∉ seen →
  ∃ j u w, reach g s j u ∧ u ∈ seen ∧ (w ∉ seen) ∧ Nx.has_edge g u w.
Proof.
  induction 1 as [|k u w Hr IH He]; intros Hs Ht; [done|].
  destruct (decide (u ∈ seen)) as [Hu|Hu]; [|by apply IH].
  by exists k, u, w.
Qed.

Lemma expand_sound seen frontier q' :
  q' ∈ Nx.expand g seen frontier →
  ∃ q w, q ∈ frontier ∧ q' = w :: q ∧
         w ∈ Nx.successors g (default ""%string (head q)) ∧ w ∉ seen.
Proof.
  revert seen. induction frontier as [|p ps IH]; intros seen; simpl;
    [by intros ?%elem_of_nil|].
  rewrite elem_of_app. intros [Hq|Hq].
  - apply list_elem_of_fmap in Hq as (w & -> & [Hw Hin]%list_elem_of_filter).
    exists p, w. split_and!; [left | done..].
  - apply IH in Hq as (q & w & Hq & -> & Hw & Hseen).
    exists q, w. split_and!; [by right | done | done |].
    intros ?. apply Hseen, elem_of_app. by left.
Qed.

Lemma expand_complete seen frontier q w :
  q ∈ frontier → w ∈ Nx.successors g (default ""%string (head q)) → w ∉ seen →
  ∃ q', q' ∈ frontier ∧ w :: q' ∈ Nx.expand g seen frontier.
Proof.
  revert seen. induction frontier as [|p ps IH]; intros seen Hq Hw Hseen;
    [by apply elem_of_nil in Hq|].
  simpl. set (new := filter (λ w, w ∉ seen) _).
  destruct (decide (w ∈ new)) as [Hnew|Hnew].
  - exists p. split; [left|]. apply elem_of_app. left.
    apply list_elem_of_fmap. by exists w.
  - apply elem_of_cons in Hq as [->|Hq].
    + exfalso. apply Hnew. by apply list_elem_of_filter.
    + destruct (IH (seen ++ new) Hq Hw) as (q' & Hq' & Hin).
      * by intros [?|?]%elem_of_app.
      * exists q'. split; [by right|]. apply elem_of_app. by right.
Qed.

Lemma expand_heads seen frontier :
  NoDup (omap head (Nx.expand g seen frontier)) ∧
  ∀ w, w ∈ omap head (Nx.expand g seen frontier) → w ∉ seen.
Proof.
  revert seen. induction frontier as [|p ps IH]; intros seen; simpl.
  - split; [apply NoDup_nil_2 | by intros w ?%elem_of_nil].
  - set (new := filter (λ w, w ∉ seen) _).
    assert (omap head ((λ w, w :: p) <$> new) = new) as Hnew.
    { clear. induction new as [|a new IHn]; [done|]. csimpl. by rewrite IHn. }
    rewrite omap_app, Hnew. destruct (IH (seen ++ new)) as [Hnd Hfresh]. split.
    + apply NoDup_app. split_and!; [|intros w Hw Hw'|done].
      * apply NoDup_filter, NoDup_successors, g_wf.
      * apply Hfresh in Hw'. apply Hw', elem_of_app. by right.
    + intros w [Hw|Hw]%elem_of_app.
      * by apply list_elem_of_filter in Hw as [? _].
      * apply Hfresh in Hw. intros ?. apply Hw, elem_of_app. by left.
Qed.

Lemma bfs_inv_start : s ∈ Nx.nodes g → bfs_inv g s 0 [s] [[s]].
Proof.
  intros Hs. split.
  - apply Forall_singleton. split; [apply from_source_start | done].
  - intros v. rewrite list_elem_of_singleton. split.
    + intros ->. exists 0. split; [done | constructor].
    + intros (j & Hj & Hr). assert (j = 0) as -> by lia. by inversion Hr.
  - intros v. split.
    + intros (q & ->%list_elem_of_singleton & [= <-]). split; [constructor | lia].
    + intros [Hr _]. inversion Hr; subst. exists [v]. split; [left | done].
  - apply NoDup_singleton.
  - by intros v ->%list_elem_of_singleton.
  - simpl. lia.
Qed.

Lemma bfs_inv_step k seen frontier :
  bfs_inv g s k seen frontier →
  Nx.expand g seen frontier ≠ [] →
  bfs_inv g s (S k) (seen ++ omap head (Nx.expand g seen frontier))
    (Nx.expand g seen frontier).
Proof.
  intros [Hpaths Hseen Hheads Hnd Hnodes Hcount] Hne.
  rewrite Forall_forall in Hpaths.
  assert (∀ q', q' ∈ Nx.expand g seen frontier →
            ∃ q u w, q ∈ frontier ∧ q' = w :: q ∧ head q = Some u ∧
                     Nx.has_edge g u w ∧ (w ∉ seen) ∧ reach g s k u) as Hnext.
  { intros q' (q & w & Hq & -> & Hw & Hfresh)%expand_sound.
    destruct (Hpaths q Hq) as [Hfs Hlen].
    destruct (from_source_reach q Hfs) as (u & Hu & Hr).
    rewrite Hu in Hw. simpl in Hw. apply elem_of_successors in Hw.
    rewrite Hlen in Hr. simpl in Hr. rewrite Nat.sub_0_r in Hr.
    by exists q, u, w. }
  assert (∀ v, (∃ q, q ∈ Nx.expand g seen frontier ∧ head q = Some v) ↔
               reach g s (S k) v ∧ ∀ j, j < S k → ¬ reach g s j v) as Hheads'.
  { intros v. split.
    - intros (q' & (q & u & w & Hq & -> & Hu & He & Hfresh & Hr)%Hnext & [= <-]).
      split; [by apply (reach_S g s _ u)|].
      intros j Hj Hrj. apply Hfresh, Hseen. exists j. split; [lia | done].
    - intros [Hr Hmin]. inversion Hr as [|k' u w Hu He]; subst.
      destruct (proj2 (Hheads u)) as (q & Hq & Hhd).
      { split; [done|]. intros j Hj Hrj. apply (Hmin (S j)); [lia|].
        by apply (reach_S g s _ u). }
      destruct (expand_complete seen frontier q v Hq) as (q' & _ & Hin).
      + rewrite Hhd. simpl. by apply elem_of_successors.
      + intros (j & Hj & Hrj)%Hseen. apply (Hmin j); [lia | done].
      + by exists (v :: q'). }
  assert (∀ v, v ∈ omap head (Nx.expand g seen frontier) ↔
               ∃ q, q ∈ Nx.expand g seen frontier ∧ head q = Some v) as Homap.
  { intros v. rewrite list_elem_of_omap. naive_solver. }
  destruct (expand_heads seen frontier) as [Hnd' Hfresh'].
  split.
  - apply Forall_forall.
    intros q' Hq'. destruct (Hnext q' Hq') as (q & u & w & Hq & -> & Hu & He & _ & _).
    destruct (Hpaths q Hq) as [Hfs Hlen]. split; [|simpl; lia].
    destruct q as [|u' q]; [done|]. injection Hu as ->. by apply from_source_step.
  - intros v. rewrite elem_of_app, Homap, Hheads', Hseen. split.
    + intros [(j & Hj & Hr)|[Hr _]]; [exists j | exists (S k)]; split; (lia || done).
    + intros (j & Hj & Hr).
      destruct (decide (v ∈ seen)) as [Hv|Hv]; [left; by apply Hseen|].
      right. assert (∀ j', j' < S k → ¬ reach g s j' v) as Hmin.
      { intros j' Hj' Hr'. apply Hv, Hseen. exists j'. split; [lia | done]. }
      split; [|done]. destruct (decide (j = S k)) as [->|]; [done|].
      exfalso. apply (Hmin j); [lia | done].
  - done.
  - apply NoDup_app. split_and!; [done| |done].
    intros v Hv Hv'. by apply Hfresh' in Hv'.
  - intros v [Hv|Hv]%elem_of_app; [by apply Hnodes|].
    apply Homap in Hv as (q' & (q & u & w & _ & -> & _ & He & _)%Hnext & [= <-]).
    by eapply wf_target.
  - rewrite length_app.
    destruct (Nx.expand g seen frontier) as [|q' next] eqn:Hexp; [done|].
    destruct (Hnext q') as (q & u & w & _ & -> & _); [left|].
    simpl. lia.
Qed.

Lemma bfs_found fuel seen frontier t i q :
  list_find (λ p, head p = Some t) frontier = Some (i, q) →
  Nx.bfs fuel g t seen frontier = Some (reverse q).
Proof. intros Hfind. destruct fuel; simpl; by rewrite Hfind. Qed.

Lemma bfs_complete fuel k seen frontier t :
  bfs_inv g s k seen frontier →
  (∃ j, reach g s j t) → (∀ j, j < k → ¬ reach g s j t) →
  length (Nx.nodes g) ≤ k + fuel →
  ∃ p d, Nx.bfs fuel g t seen frontier = Some p ∧ length p = S d ∧
         reach g s d t ∧ ∀ j, reach g s j t → d ≤ j.
Proof.
  revert k seen frontier.
  induction fuel as [|fuel IH]; intros k seen frontier Hinv Hreach Hmin Hfuel.
  all: destruct (list_find (λ p, head p = Some t) frontier) as [[i q]|] eqn:Hfind.
  1,3: apply list_find_Some in Hfind as Hfound;
    destruct Hfound as (Hq%list_elem_of_lookup_2 & Hhd & _);
    destruct (proj1 (inv_heads _ _ _ _ _ Hinv t)) as [Hr Hmin']; [by exists q|];
    pose proof (proj1 (Forall_forall _ _) (inv_paths _ _ _ _ _ Hinv) q Hq) as [_ Hlen];
    exists (reverse q), k; rewrite (bfs_found _ _ _ _ _ _ Hfind);
    split_and!; [done | by rewrite length_reverse | done |];
    intros j Hj; destruct (decide (k ≤ j)); [done|]; exfalso; apply (Hmin j); [lia|done].
  all: pose proof Hfind as Hnone; apply list_find_None in Hnone;
    rewrite Forall_forall in Hnone.
  all: assert (¬ reach g s k t) as Hk
    by (intros Hr; destruct (proj2 (inv_heads _ _ _ _ _ Hinv t)) as (q & Hq & Hhd);
        [by split | by apply (Hnone q)]).
  - exfalso. pose proof (inv_count _ _ _ _ _ Hinv) as Hcount.
    assert (length seen ≤ length (Nx.nodes g)); [|lia].
    apply submseteq_length, NoDup_submseteq;
      [apply (inv_NoDup _ _ _ _ _ Hinv) | apply (inv_nodes _ _ _ _ _ Hinv)].
  - assert (Nx.expand g seen frontier ≠ []) as Hne.
    { destruct Hreach as [j Hj].
      destruct (reach_crossing seen j t Hj) as (i & u & w & Hu & Huseen & Hw & He).
      - apply (inv_seen _ _ _ _ _ Hinv). exists 0. split; [lia | constructor].
      - intros (j' & Hj' & Hr')%(inv_seen _ _ _ _ _ Hinv).
        destruct (decide (j' = k)) as [->|]; [done|]. apply (Hmin j'); [lia | done].
      - destruct (proj2 (inv_heads _ _ _ _ _ Hinv u)) as (q & Hq & Hhd).
        { assert (∀ j', j' < k → ¬ reach g s j' u) as Hu'.
          { intros j' Hj' Hr'. apply Hw, (inv_seen _ _ _ _ _ Hinv).
            exists (S j'). split; [lia | by apply (reach_S g s _ u)]. }
          split; [|done].
          apply (inv_seen _ _ _ _ _ Hinv) in Huseen as (j' & Hj' & Hr').
          destruct (decide (j' = k)) as [->|]; [done|].
          exfalso. apply (Hu' j'); [lia | done]. }
        destruct (expand_complete seen frontier q w Hq) as (q' & _ & Hin);
          [rewrite Hhd; by apply elem_of_successors | done |].
        intros Hnil. rewrite Hnil in Hin. by apply elem_of_nil in Hin. }
    simpl. rewrite Hfind.
    pose proof (bfs_inv_step k seen frontier Hinv Hne) as Hinv'.
    destruct (Nx.expand g seen frontier) as [|q' next] eqn:Hexp; [done|].
    apply (IH (S k)); [done | done | | lia].
    intros j Hj. destruct (decide (j = k)) as [->|]; [done|]. apply Hmin. lia.
Qed.
End bfs_complete.

(** [shortest_path] finds a path whenever there is one, and none is shorter
    than the one it returns. *)
Lemma shortest_path_complete g s t p' :
  well_formed g → s ∈ Nx.nodes g → path_between g s t p' →
  ∃ p, Nx.shortest_path g s t = Some p ∧ path_between g s t p ∧ length p ≤ length p'.
Proof.
  intros Hg Hs Hp'. pose proof (path_between_reach g s t p' Hp') as Hr.
  destruct (bfs_complete g s Hg (length (Nx.nodes g)) 0 [s] [[s]] t)
    as (p & d & Hbfs & Hlen & _ & Hmin);
    [by apply bfs_inv_start | by eexists | lia | lia |].
  exists p. split_and!; [done | by apply shortest_path_sound |].
  apply Hmin in Hr. destruct Hp' as (Hne%walk_nonempty & _).
  destruct p'; [done | simpl in *; lia].
Qed.

Lemma shortest_path_None g s t p :
  well_formed g → s ∈ Nx.nodes g →
  Nx.shortest_path g s t = None → ¬ path_between g s t p.
Proof.
  intros Hg Hs Hnone Hp.
  destruct (shortest_path_complete g s t p Hg Hs Hp) as (? & ? & _). congruence.
Qed.

(** ** Simple cycles *)

Lemma rotation_length c c' : rotation c c' → length c' = length c.
Proof. intros (l1 & l2 & -> & ->). rewrite !length_app. lia. Qed.

Lemma rotation_singleton x c' : rotation [x] c' → c' = [x].
Proof.
  intros (l1 & l2 & Heq & ->). destruct l1 as [|a l1]; simpl in *.
  - subst l2. done.
  - injection Heq as -> Heq. symmetry in Heq.
    apply app_eq_nil in Heq as [-> ->]. done.
Qed.

(** A property kept by moving the first node to the end is kept by rotation. *)
Lemma rotation_preserves (P : list Code → Prop) :
  (∀ x l, P (x :: l) → P (l ++ [x])) →
  ∀ c c', rotation c c' → P c → P c'.
Proof.
  intros Hstep c c' (l1 & l2 & -> & ->). revert l2.
  induction l1 as [|x l1 IH]; intros l2 HP; simpl in *.
  - by rewrite app_nil_r.
  - apply Hstep in HP. rewrite <- app_assoc in HP. apply IH in HP.
    by rewrite <- app_assoc in HP.
Qed.

Lemma simple_cycle_rotate_1 g x l : simple_cycle g (x :: l) → simple_cycle g (l ++ [x]).
Proof.
  intros (Hnd & Hw & a & b & Ha & Hb & Hba). injection Ha as <-.
  destruct l as [|y l]; [by split_and!; eauto|].
  split_and!.
  - eapply NoDup_Permutation_proper; [|exact Hnd].
    by rewrite <- Permutation_cons_append.
  - apply (walk_snoc _ _ b); [by inversion Hw | done | done].
  - exists y, x. split_and!; [done | by rewrite last_snoc | by inversion Hw].
Qed.

Lemma on_cycle_rotate_1 x l u v : on_cycle (x :: l) u v → on_cycle (l ++ [x]) u v.
Proof.
  destruct l as [|y l]; [done|].
  intros [(l1 & l2 & Heq)|[Hl Hh]].
  - destruct l1 as [|x' l1]; simpl in Heq.
    + injection Heq as -> -> ->. right. by rewrite last_snoc.
    + injection Heq as -> Heq. left. exists l1, (l2 ++ [x']).
      rewrite Heq. by rewrite <- !app_assoc.
  - injection Hh as ->. left.
    change (last (y :: l) = Some u) in Hl.
    apply last_Some in Hl as [l0 Hl0]. exists l0, [].
    rewrite Hl0. by rewrite <- app_assoc.
Qed.

Lemma simple_cycle_rotation g c c' :
  rotation c c' → simple_cycle g c → simple_cycle g c'.
Proof. apply rotation_preserves, simple_cycle_rotate_1. Qed.

Lemma on_cycle_rotation c c' u v : rotation c c' → on_cycle c u v → on_cycle c' u v.
Proof.
  apply (rotation_preserves (λ c, on_cycle c u v)).
  intros x l. apply on_cycle_rotate_1.
Qed.

(** Every edge on a simple cycle is an edge of the graph. *)
Lemma on_cycle_has_edge g c u v :
  simple_cycle g c → on_cycle c u v → Nx.has_edge g u v.
Proof.
  intros (_ & Hw & a & b & Ha & Hb & Hba) [(l1 & l2 & ->)|[Hl Hh]].
  - apply (walk_app_inv_edge g (l1 ++ [u]) (v :: l2)); [|by rewrite last_snoc|done].
    by rewrite <- app_assoc.
  - congruence.
Qed.

(** *** What the loop over [range(len(c))] collects *)

Lemma elem_of_cycle_pairs c u v : (u, v) ∈ App.cycle_pairs c ↔ on_cycle c u v.
Proof.
  unfold App.cycle_pairs. rewrite list_elem_of_fmap. split.
  - intros (i & [= -> ->] & [_ Hi]%elem_of_seq). simpl in Hi.
    destruct (decide (S i < length c)) as [Hlt|Hge].
    + left. rewrite Nat.add_1_r, Nat.mod_small by done.
      exists (take i c), (drop (S (S i)) c).
      rewrite <- (take_drop i c) at 1. f_equal.
      rewrite (drop_S c (c !!! i) i) by (apply list_lookup_lookup_total_lt; lia).
      f_equal.
      by rewrite (drop_S c (c !!! S i) (S i)) by (by apply list_lookup_lookup_total_lt).
    + right. assert (S i = length c) as Hn by lia.
      rewrite Nat.add_1_r, Hn, Nat.Div0.mod_same.
      rewrite last_lookup, head_lookup, <- Hn. simpl.
      split; apply list_lookup_lookup_total_lt; lia.
  - intros [(l1 & l2 & ->)|[Hl Hh]].
    + exists (length l1). split.
      * rewrite Nat.add_1_r, Nat.mod_small by (rewrite length_app; simpl; lia).
        f_equal; symmetry; apply list_lookup_total_correct.
        -- by rewrite list_lookup_middle.
        -- rewrite (cons_middle u), app_assoc.
           rewrite list_lookup_middle; [done | rewrite length_app; simpl; lia].
      * apply elem_of_seq. rewrite length_app. simpl. lia.
    + destruct c as [|a c]; [done|]. exists (length c). split.
      * rewrite Nat.add_1_r. simpl length. rewrite Nat.Div0.mod_same.
        rewrite last_lookup in Hl. rewrite head_lookup in Hh. simpl length in Hl.
        simpl pred in Hl.
        f_equal; symmetry; by apply list_lookup_total_correct.
      * apply elem_of_seq. simpl. lia.
Qed.

Lemma elem_of_cycle_edges df u v :
  (u, v) ∈ App.cycle_edges df ↔ ∃ c, c ∈ App.cycles df ∧ on_cycle c u v.
Proof.
  unfold App.cycle_edges. rewrite elem_of_list_to_set, list_elem_of_bind.
  split; intros (c & H1 & H2); exists c; by rewrite ?elem_of_cycle_pairs in *.
Qed.

(** *** The enumeration is sound and complete *)

Section enumeration.
Variable g : Nx.DiGraph.

Lemma closing_walks_sound n s allowed cur visited c :
  cur ∈ visited →
  c ∈ Nx.closing_walks g n s allowed cur visited →
  ∃ c', c = cur :: c' ∧ NoDup c ∧ walk g c ∧
        (∃ b, last c = Some b ∧ Nx.has_edge g b s) ∧
        (∀ x, x ∈ c' → (x ∉ visited) ∧ x ∈ allowed).
Proof.
  revert cur visited c. induction n as [|n IH]; intros cur visited c Hcur; simpl.
  - rewrite app_nil_r. case_decide as He; [|by intros ?%elem_of_nil].
    intros ->%list_elem_of_singleton. exists []. split_and!; [done| |constructor| |].
    + apply NoDup_singleton.
    + by exists cur.
    + by intros x ?%elem_of_nil.
  - rewrite elem_of_app. intros [Hc|Hc].
    + case_decide as He; [|by apply elem_of_nil in Hc].
      apply list_elem_of_singleton in Hc as ->.
      exists []. split_and!; [done| |constructor| |].
      * apply NoDup_singleton.
      * by exists cur.
      * by intros x ?%elem_of_nil.
    + apply list_elem_of_bind in Hc as (w & Hc & Hw%elem_of_successors).
      case_decide as Hok; [|by apply elem_of_nil in Hc].
      destruct Hok as [Hwa Hwv].
      apply list_elem_of_fmap in Hc as (c0 & -> & Hc0).
      apply IH in Hc0 as (c' & -> & Hnd & Hwalk & Hclose & Hfresh); [|left].
      exists (w :: c'). split_and!; [done | | by constructor | | ].
      * apply NoDup_cons. split; [|done].
        intros [->|Hin]%elem_of_cons; [done|].
        apply Hfresh in Hin as [Hin _]. apply Hin. by right.
      * destruct Hclose as (b & Hb & Hbs). by exists b.
      * intros x [->|Hin]%elem_of_cons; [done|].
        apply Hfresh in Hin as [Hin ?]. split; [|done].
        intros ?. apply Hin. by right.
Qed.

Lemma closing_walks_complete n s allowed cur visited c' :
  NoDup (cur :: c') → walk g (cur :: c') →
  (∃ b, last (cur :: c') = Some b ∧ Nx.has_edge g b s) →
  (∀ x, x ∈ c' → (x ∉ visited) ∧ x ∈ allowed) →
  length c' ≤ n →
  cur :: c' ∈ Nx.closing_walks g n s allowed cur visited.
Proof.
  revert n cur visited. induction c' as [|w c' IH]; intros n cur visited Hnd Hw Hclose Hfresh Hlen.
  - destruct Hclose as (b & [= <-] & He).
    destruct n; simpl; rewrite decide_True by done; left.
  - destruct n as [|n]; [simpl in Hlen; lia|]. simpl.
    apply elem_of_app. right. apply list_elem_of_bind. exists w.
    inversion Hw as [|? ? ? Hcw Hw']; subst.
    split; [|by apply elem_of_successors].
    destruct (Hfresh w) as [Hwv Hwa]; [left|].
    rewrite decide_True by done. apply list_elem_of_fmap. exists (w :: c').
    split; [done|]. apply NoDup_cons in Hnd as [_ Hnd].
    apply IH; [done..| |simpl in Hlen; lia].
    intros x Hx. destruct (Hfresh x) as [Hxv Hxa]; [by right|]. split; [|done].
    intros [->|?]%elem_of_cons; [|done].
    by apply NoDup_cons in Hnd as [? _].
Qed.

Lemma cycles_among_sound remaining c :
  c ∈ Nx.cycles_among g remaining → simple_cycle g c ∧ c ⊆ remaining.
Proof.
  induction remaining as [|s rest IH]; simpl; [by intros ?%elem_of_nil|].
  rewrite elem_of_app. intros [Hc|Hc].
  - apply closing_walks_sound in Hc as (c' & -> & Hnd & Hw & (b & Hb & Hbs) & Hfresh);
      [|left].
    split; [split_and!; [done..|by exists s, b]|].
    intros x [->|Hx]%elem_of_cons; [left|]. by apply Hfresh.
  - apply IH in Hc as [? Hsub]. split; [done|]. intros x Hx. right. by apply Hsub.
Qed.

Lemma cycles_among_complete remaining c :
  simple_cycle g c → c ⊆ remaining →
  ∃ c', c' ∈ Nx.cycles_among g remaining ∧ rotation c c'.
Proof.
  induction remaining as [|s rest IH]; intros Hc Hsub.
  - destruct Hc as (_ & Hw%walk_nonempty & _). destruct c as [|a c]; [done|].
    exfalso. eapply elem_of_nil, (Hsub a). left.
  - destruct (decide (s ∈ c)) as [Hs|Hs].
    + apply list_elem_of_split in Hs as (l1 & l2 & ->).
      assert (rotation (l1 ++ s :: l2) (s :: l2 ++ l1)) as Hrot by (by exists l1, (s :: l2)).
      exists (s :: l2 ++ l1). split; [|done].
      pose proof (simple_cycle_rotation g _ _ Hrot Hc) as (Hnd & Hw & a & b & [= <-] & Hb & Hbs).
      simpl. apply elem_of_app. left.
      assert (∀ x, x ∈ l2 ++ l1 → x ∈ s :: rest) as Hin.
      { intros x Hx. apply Hsub. rewrite elem_of_app, elem_of_cons in *. tauto. }
      apply closing_walks_complete; [done | done | by exists b | |].
      * intros x Hx. split; [|by apply Hin].
        intros ->%list_elem_of_singleton. by apply NoDup_cons in Hnd as [? _].
      * assert (length (s :: l2 ++ l1) ≤ length (s :: rest)) as Hlen; [|simpl in Hlen; lia].
        apply submseteq_length, NoDup_submseteq; [done|].
        intros x [->|Hx]%elem_of_cons; [left | by apply Hin].
    + destruct IH as (c' & Hc' & Hrot); [done| |].
      * intros x Hx. pose proof (Hsub x Hx) as [->|?]%elem_of_cons; done.
      * exists c'. split; [|done]. simpl. apply elem_of_app. by right.
Qed.

End enumeration.

(** *** Each cycle is listed once *)

Section enumeration_once.
Variable g : Nx.DiGraph.
Hypothesis g_wf : well_formed g.

Lemma closing_walks_head n s allowed cur visited c :
  c ∈ Nx.closing_walks g n s allowed cur visited → head c = Some cur.
Proof.
  destruct n; simpl; rewrite ?app_nil_r, ?elem_of_app.
  - case_decide; [by intros ->%list_elem_of_singleton | by intros ?%elem_of_nil].
  - intros [Hc|Hc].
    + case_decide; [by apply list_elem_of_singleton in Hc as -> | by apply elem_of_nil in Hc].
    + apply list_elem_of_bind in Hc as (w & Hc & _).
      case_decide; [|by apply elem_of_nil in Hc].
      by apply list_elem_of_fmap in Hc as (c0 & -> & _).
Qed.

Lemma closing_walks_NoDup n s allowed cur visited :
  NoDup (Nx.closing_walks g n s allowed cur visited).
Proof.
  revert cur visited. induction n as [|n IH]; intros cur visited; simpl.
  - rewrite app_nil_r. case_decide; [apply NoDup_singleton | apply NoDup_nil_2].
  - apply NoDup_app. split_and!.
    + case_decide; [apply NoDup_singleton | apply NoDup_nil_2].
    + intros c Hc Hc'. case_decide; [|by apply elem_of_nil in Hc].
      apply list_elem_of_singleton in Hc as ->.
      apply list_elem_of_bind in Hc' as (w & Hc' & _).
      case_decide; [|by apply elem_of_nil in Hc'].
      apply list_elem_of_fmap in Hc' as (c0 & [= <-] & Hc0).
      by apply closing_walks_head in Hc0.
    + apply NoDup_bind; [| |apply NoDup_successors, g_wf].
      * intros w1 w2 c _ _ Hc1 Hc2.
        destruct (decide (w1 ∈ allowed ∧ w1 ∉ visited)); [|by apply elem_of_nil in Hc1].
        destruct (decide (w2 ∈ allowed ∧ w2 ∉ visited)); [|by apply elem_of_nil in Hc2].
        apply list_elem_of_fmap in Hc1 as (c1 & -> & Hc1%closing_walks_head).
        apply list_elem_of_fmap in Hc2 as (c2 & [= <-] & Hc2%closing_walks_head).
        congruence.
      * intros w _. case_decide; [|apply NoDup_nil_2]. apply (NoDup_fmap_2 _), IH.
Qed.

Lemma cycles_among_NoDup remaining :
  NoDup remaining → NoDup (Nx.cycles_among g remaining).
Proof.
  induction 1 as [|s rest Hs Hnd IH]; simpl; [apply NoDup_nil_2|].
  apply NoDup_app. split_and!; [apply closing_walks_NoDup | | done].
  intros c Hc%closing_walks_head [_ Hsub]%cycles_among_sound.
  apply Hs, Hsub. destruct c; [done|]. injection Hc as ->. left.
Qed.

Lemma rotation_same_head c c' :
  NoDup c → rotation c c' → head c = head c' → c = c'.
Proof.
  intros Hnd (l1 & l2 & -> & ->) Hh.
  destruct l1 as [|a l1]; [by rewrite app_nil_r|].
  destruct l2 as [|b l2]; [by rewrite app_nil_r|].
  injection Hh as ->. apply NoDup_app in Hnd as (_ & Hdisj & _).
  destruct (Hdisj b); left.
Qed.

Lemma rotation_elem_of c c' x : rotation c c' → x ∈ c → x ∈ c'.
Proof. intros (l1 & l2 & -> & ->). rewrite !elem_of_app. tauto. Qed.

Lemma cycles_among_rotation remaining c c' :
  NoDup remaining →
  c ∈ Nx.cycles_among g remaining → c' ∈ Nx.cycles_among g remaining →
  rotation c c' → c = c'.
Proof.
  induction 1 as [|s rest Hs Hnd IH]; simpl; [by intros ?%elem_of_nil|].
  rewrite !elem_of_app. intros [Hc|Hc] [Hc'|Hc'] Hrot.
  - apply (rotation_same_head c c'); [|done|].
    + by apply closing_walks_sound in Hc as (? & _ & ? & _); [|left].
    + apply closing_walks_head in Hc, Hc'. congruence.
  - exfalso. apply closing_walks_head in Hc. apply cycles_among_sound in Hc' as [_ Hsub].
    apply Hs, Hsub, (rotation_elem_of c c'); [done|].
    destruct c; [done|]. injection Hc as ->. left.
  - exfalso. apply closing_walks_head in Hc'. apply cycles_among_sound in Hc as [_ Hsub].
    destruct Hrot as (l1 & l2 & -> & ->).
    apply Hs, Hsub. destruct l2 as [|b l2].
    + rewrite app_nil_r. destruct l1; [done|]. injection Hc' as ->. left.
    + injection Hc' as ->. apply elem_of_app. right. left.
  - by apply IH.
Qed.
End enumeration_once.

Lemma walk_of_consecutive g c :
  c ≠ [] → (∀ l1 l2 u v, c = l1 ++ u :: v :: l2 → Nx.has_edge g u v) → walk g c.
Proof.
  induction c as [|a c IH]; intros Hne He; [done|].
  destruct c as [|b c]; constructor.
  - by apply (He [] c).
  - apply IH; [done|]. intros l1 l2 u v Heq. apply (He (a :: l1) l2). by rewrite Heq.
Qed.

Lemma simple_cycle_alt g c :
  simple_cycle g c ↔
  NoDup c ∧ c ≠ [] ∧ ∀ u v, on_cycle c u v → Nx.has_edge g u v.
Proof.
  split.
  - intros Hc. split_and!; [by destruct Hc | by destruct Hc as (_ & ?%walk_nonempty & _) |].
    intros u v. by apply on_cycle_has_edge.
  - intros (Hnd & Hne & He). split_and!; [done| |].
    + apply walk_of_consecutive; [done|]. intros l1 l2 u v Heq.
      apply He. left. by exists l1, l2.
    + destruct c as [|a c]; [done|].
      destruct (last (a :: c)) as [b|] eqn:Hb; [|by apply last_None in Hb].
      exists a, b. split_and!; [done..|]. apply He. by right.
Qed.

Lemma simple_cycle_nodes g c : well_formed g → simple_cycle g c → c ⊆ Nx.nodes g.
Proof.
  intros Hg Hc x [i Hi]%list_elem_of_lookup_1.
  assert (i < length c) as Hlt by (by eapply lookup_lt_Some).
  apply (wf_source g Hg x (c !!! ((i + 1) mod length c))).
  apply (on_cycle_has_edge g c); [done|]. apply elem_of_cycle_pairs.
  unfold App.cycle_pairs. apply list_elem_of_fmap. exists i. split.
  - f_equal. symmetry. by apply list_lookup_total_correct.
  - apply elem_of_seq. lia.
Qed.

Lemma simple_cycles_sound g c : c ∈ Nx.simple_cycles g → simple_cycle g c.
Proof. intros Hc. by apply cycles_among_sound in Hc as [? _]. Qed.

Lemma simple_cycles_complete g c :
  well_formed g → simple_cycle g c →
  ∃ c', c' ∈ Nx.simple_cycles g ∧ rotation c c'.
Proof.
  intros Hg Hc. apply cycles_among_complete; [done|]. by apply simple_cycle_nodes.
Qed.

(** ** Rates *)

Lemma Zpos_of_nat d : 0 < d → Z.pos (Pos.of_nat d) = Z.of_nat d.
Proof. intros Hd. rewrite <- (Nat2Pos.id d) at 2 by lia. by rewrite positive_nat_Z. Qed.

Lemma ratio_bounds n d : 0 < d → n ≤ d → (0 <= ratio n d)%Q ∧ (ratio n d <= 1)%Q.
Proof.
  intros Hd Hn. unfold ratio, Qle. simpl. rewrite Zpos_of_nat by done. lia.
Qed.

Lemma py_div_Ok n d : 0 < d → py_div n d = Ok (ratio n d).
Proof. intros Hd. unfold py_div. rewrite decide_False; [done | lia]. Qed.

Lemma App_total_edges_size df :
  App.total_edges df = size (list_to_set (C := gset (Code * Code)) (Nx.edge_pairs (App.G df))).
Proof.
  rewrite size_list_to_set by apply App_G_well_formed.
  unfold App.total_edges, Nx.number_of_edges, Nx.edge_pairs. by rewrite length_fmap.
Qed.

Lemma cycle_edges_has_edge df u v :
  (u, v) ∈ App.cycle_edges df → Nx.has_edge (App.G df) u v.
Proof.
  intros (c & Hc%simple_cycles_sound & Hon)%elem_of_cycle_edges.
  by eapply on_cycle_has_edge.
Qed.

Lemma cycle_edges_size df : size (App.cycle_edges df) ≤ App.total_edges df.
Proof.
  rewrite App_total_edges_size. apply subseteq_size.
  intros [u v] H%cycle_edges_has_edge. by apply elem_of_list_to_set.
Qed.

(** * The claims *)

(** ** Circular routing *)

(** C10. For every input with at least one edge, every pair put in
    [cycle_edges] is an edge of the graph, so [cycle_edges] has at most
    [total_edges] elements and [circular_rate] lies between 0 and 1. *)
Theorem circular_rate_bounds df :
  0 < App.total_edges df →
  (∀ u v, (u, v) ∈ App.cycle_edges df → Nx.has_edge (App.G df) u v) ∧
  size (App.cycle_edges df) ≤ App.total_edges df ∧
  ∃ q, App.circular_rate df = Ok q ∧ (0 <= q)%Q ∧ (q <= 1)%Q.
Proof.
  intros Hpos. split_and!; [apply cycle_edges_has_edge | apply cycle_edges_size |].
  exists (ratio (size (App.cycle_edges df)) (App.total_edges df)).
  unfold App.circular_rate. rewrite decide_True by lia.
  split; [by apply py_div_Ok|]. apply ratio_bounds; [done | apply cycle_edges_size].
Qed.

Lemma circular_rate_bounds_witness :
  0 < App.total_edges ring3 ∧
  ∃ q, App.circular_rate ring3 = Ok q ∧ (0 <= q)%Q ∧ (q <= 1)%Q.
Proof.
  assert (0 < App.total_edges ring3) as H by (vm_compute; lia).
  split; [exact H|]. exact (proj2 (proj2 (circular_rate_bounds ring3 H))).
Defined.

(** C5. [cycle_edges] is exactly the set of edges that lie on a simple cycle
    of the graph, wrap-around edges included. When the transfers of the ledger
    are exactly those of one 3-cycle [a → b → c → a], [cycle_edges] is
    [{(a, b), (b, c), (c, a)}] and [circular_rate] is 1. *)
Theorem cycle_edges_exact :
  (∀ df u v,
     (u, v) ∈ App.cycle_edges df ↔
     ∃ c, simple_cycle (App.G df) c ∧ on_cycle c u v) ∧
  (∀ df a b c,
     a ≠ b → b ≠ c → c ≠ a →
     (∀ u v, connects df u v ↔ (u, v) ∈ [(a, b); (b, c); (c, a)]) →
     App.cycle_edges df = {[ (a, b); (b, c); (c, a) ]} ∧
     ∃ q, App.circular_rate df = Ok q ∧ (q == 1)%Q).
Proof.
  assert (∀ df u v,
     (u, v) ∈ App.cycle_edges df ↔
     ∃ c, simple_cycle (App.G df) c ∧ on_cycle c u v) as Hexact.
  { intros df u v. rewrite elem_of_cycle_edges. split.
    - intros (c & Hc%simple_cycles_sound & Hon). by exists c.
    - intros (c & Hc & Hon).
      destruct (simple_cycles_complete (App.G df) c) as (c' & Hc' & Hrot);
        [apply App_G_well_formed | done |].
      exists c'. split; [done|]. by eapply on_cycle_rotation. }
  split; [exact Hexact|].
  intros df a b c Hab Hbc Hca Hdf.
  assert (∀ u v, Nx.has_edge (App.G df) u v ↔ (u, v) ∈ [(a, b); (b, c); (c, a)]) as Hedges.
  { intros u v. by rewrite App_has_edge. }
  assert (simple_cycle (App.G df) [a; b; c]) as Hring.
  { split_and!.
    - apply NoDup_cons. split; [set_solver|]. apply NoDup_cons. split; [set_solver|].
      apply NoDup_singleton.
    - constructor; [apply Hedges; set_solver|].
      constructor; [apply Hedges; set_solver|]. constructor.
    - exists a, c. split_and!; [done..|]. apply Hedges. set_solver. }
  assert (App.cycle_edges df = {[ (a, b); (b, c); (c, a) ]}) as Hset.
  { apply set_eq. intros [u v]. split.
    - intros H%cycle_edges_has_edge%Hedges. set_solver.
    - intros Hin. apply Hexact. exists [a; b; c]. split; [done|].
      rewrite !elem_of_union, !elem_of_singleton in Hin.
      destruct Hin as [[[= -> ->]|[= -> ->]]|[= -> ->]].
      + left. by exists [], [c].
      + left. by exists [a], [].
      + by right. }
  split; [done|].
  assert (App.total_edges df = 3) as Htotal.
  { rewrite App_total_edges_size.
    replace (list_to_set (Nx.edge_pairs (App.G df)))
      with (list_to_set (C := gset (Code * Code)) [(a, b); (b, c); (c, a)]).
    - rewrite size_list_to_set; [done|].
      apply NoDup_cons. split; [set_solver|]. apply NoDup_cons. split; [set_solver|].
      apply NoDup_singleton.
    - apply set_eq. intros [u v]. rewrite !elem_of_list_to_set. symmetry. apply Hedges. }
  assert (size (App.cycle_edges df) = 3) as Hsize.
  { rewrite Hset, !size_union, !size_singleton; [done|set_solver..]. }
  exists (ratio 3 3). unfold App.circular_rate.
  rewrite Htotal, Hsize. done.
Qed.

Lemma cycle_edges_exact_witness :
  App.cycle_edges ring3 = {[ ("A", "B"); ("B", "C"); ("C", "A") ]} ∧
  ∃ q, App.circular_rate ring3 = Ok q ∧ (q == 1)%Q.
Proof.
  apply (proj2 cycle_edges_exact ring3 "A" "B" "C").
  1-3: discriminate.
  intros u v. unfold connects, ring3. split.
  - intros (row & Hrow & <- & <-). set_solver.
  - rewrite !elem_of_cons, elem_of_nil.
    intros [[= -> ->]|[[= -> ->]|[[= -> ->]|[]]]];
      [exists (tx "A" "B" 10 1) | exists (tx "B" "C" 10 2) | exists (tx "C" "A" 10 3)];
      (split; [set_solver | done]).
Defined.

(** *** No budget *)

Lemma NoDup_accounts n : NoDup (accounts n).
Proof. apply (NoDup_fmap_2 _), NoDup_seq. Qed.

Lemma length_accounts n : length (accounts n) = n.
Proof. unfold accounts. by rewrite length_fmap, length_seq. Qed.

Lemma connects_self_loops ns x : x ∈ ns → connects (self_loops ns) x x.
Proof.
  intros Hx. exists (tx x x 10 1). split; [|done].
  apply list_elem_of_fmap. by exists x.
Qed.

Lemma connects_ring ns u v : on_cycle ns u v → connects (ring ns) u v.
Proof.
  intros Hon%elem_of_cycle_pairs. exists (tx u v 10 1). split; [|done].
  apply list_elem_of_fmap. by exists (u, v).
Qed.

Lemma self_loop_cycle df a : connects df a a → [a] ∈ App.cycles df.
Proof.
  intros Ha. destruct (simple_cycles_complete (App.G df) [a]) as (c' & Hc' & Hrot).
  - apply App_G_well_formed.
  - split_and!; [apply NoDup_singleton | constructor |].
    exists a, a. split_and!; [done..|]. by apply App_has_edge.
  - by apply rotation_singleton in Hrot as ->.
Qed.

Lemma self_loops_count ns : NoDup ns → length ns ≤ length (App.cycles (self_loops ns)).
Proof.
  intros Hnd. rewrite <- (length_fmap (λ x, [x]) ns).
  apply submseteq_length, NoDup_submseteq.
  - apply (NoDup_fmap_2 _), Hnd.
  - intros c (x & -> & Hx)%list_elem_of_fmap.
    by apply self_loop_cycle, connects_self_loops.
Qed.

Lemma ring_cycle ns :
  NoDup ns → ns ≠ [] → ∃ c, c ∈ App.cycles (ring ns) ∧ length c = length ns.
Proof.
  intros Hnd Hne.
  destruct (simple_cycles_complete (App.G (ring ns)) ns) as (c' & Hc' & Hrot).
  - apply App_G_well_formed.
  - apply simple_cycle_alt. split_and!; [done..|].
    intros u v Hon. by apply App_has_edge, connects_ring.
  - exists c'. split; [done|]. by apply rotation_length.
Qed.

(** C9, as stated, fails: no bound on the number of enumerated cycles and no
    bound on their length is enforced. *)
Lemma cycles_not_budgeted :
  ¬ (∃ max_count, ∀ df, length (App.cycles df) ≤ max_count) ∧
  ¬ (∃ max_length, ∀ df c, c ∈ App.cycles df → length c ≤ max_length).
Proof.
  split.
  - intros [n Hn]. specialize (Hn (self_loops (accounts (S n)))).
    pose proof (self_loops_count (accounts (S n)) (NoDup_accounts _)) as Hlen.
    rewrite length_accounts in Hlen. lia.
  - intros [n Hn].
    destruct (ring_cycle (accounts (S n))) as (c & Hc & Hlen);
      [apply NoDup_accounts | done |].
    apply Hn in Hc. rewrite length_accounts in Hlen. lia.
Qed.

(** C9, amended. The enumeration takes no budget and returns no truncation
    mark: on every ledger it terminates with the complete list of the simple
    cycles of the graph. Every listed entry is a simple cycle, every simple
    cycle is listed, from one of its nodes, and it is listed once. *)
Theorem cycles_sound_and_complete df :
  (∀ c, c ∈ App.cycles df → simple_cycle (App.G df) c) ∧
  (∀ c, simple_cycle (App.G df) c → ∃ c', c' ∈ App.cycles df ∧ rotation c c') ∧
  NoDup (App.cycles df) ∧
  (∀ c c', c ∈ App.cycles df → c' ∈ App.cycles df → rotation c c' → c = c').
Proof.
  pose proof (App_G_well_formed df) as Hg. split_and!.
  - intros c. apply simple_cycles_sound.
  - intros c. by apply simple_cycles_complete.
  - apply cycles_among_NoDup, Hg. done.
  - intros c c'. apply cycles_among_rotation, Hg.
Qed.

Lemma cycles_sound_and_complete_witness :
  simple_cycle (App.G ring3) ["B"; "C"; "A"] ∧
  ∃ c', c' ∈ App.cycles ring3 ∧ rotation ["B"; "C"; "A"] c'.
Proof.
  assert (simple_cycle (App.G ring3) ["B"; "C"; "A"]) as Hc.
  { split_and!.
    - by_compute.
    - repeat constructor; by_compute.
    - exists "B", "A". split_and!; [done..|]. by_compute. }
  split; [exact Hc|]. exact (proj1 (proj2 (cycles_sound_and_complete ring3)) _ Hc).
Defined.

(** ** Self-referencing transfers *)

Lemma not_elem_of_multi_hop_pairs df a : (a, a) ∉ App.multi_hop_pairs df.
Proof.
  unfold App.multi_hop_pairs. rewrite elem_of_list_to_set.
  intros (s & (t & Hin & _)%list_elem_of_bind & _)%list_elem_of_bind.
  case_decide as Hne; [|by apply elem_of_nil in Hin].
  destruct (Nx.shortest_path_length _ _ _); [|by apply elem_of_nil in Hin].
  case_decide; [|by apply elem_of_nil in Hin].
  apply list_elem_of_singleton in Hin. congruence.
Qed.

Lemma elem_of_suspicious_paths df path :
  path ∈ MultihopBackend.suspicious_paths df ↔
  ∃ src dst,
    src ∈ Nx.nodes (MultihopBackend.G df) ∧ dst ∈ Nx.nodes (MultihopBackend.G df) ∧
    src ≠ dst ∧ Nx.shortest_path (MultihopBackend.G df) src dst = Some path ∧
    MultihopBackend.MIN_HOP_LENGTH ≤ length path ∧
    MultihopBackend.within_window
      (MultihopBackend.edge_dates (MultihopBackend.G df) path) = true.
Proof.
  unfold MultihopBackend.suspicious_paths. rewrite list_elem_of_bind. split.
  - intros (src & (dst & Hin & Hdst)%list_elem_of_bind & Hsrc).
    case_decide as Hne; [by apply elem_of_nil in Hin|].
    destruct (Nx.shortest_path _ src dst) as [p|] eqn:Hp; [|by apply elem_of_nil in Hin].
    case_decide as Hlen; [by apply elem_of_nil in Hin|].
    destruct (MultihopBackend.within_window _) eqn:Hw; [|by apply elem_of_nil in Hin].
    apply list_elem_of_singleton in Hin as ->.
    exists src, dst. split_and!; [done..|lia|done].
  - intros (src & dst & Hsrc & Hdst & Hne & Hp & Hlen & Hw).
    exists src. split; [|done]. apply list_elem_of_bind. exists dst. split; [|done].
    rewrite decide_False by done. rewrite Hp.
    rewrite decide_False by lia. rewrite Hw. left.
Qed.

Lemma not_elem_of_unique_suspicious_pairs df a :
  (a, a) ∉ MultihopBackend.unique_suspicious_pairs df.
Proof.
  unfold MultihopBackend.unique_suspicious_pairs.
  rewrite elem_of_list_to_set, list_elem_of_fmap.
  intros (p & [= H0 Hl] & Hp). apply elem_of_suspicious_paths in Hp
    as (src & dst & _ & _ & Hne & (_ & Hhd & Hlast)%shortest_path_sound & _).
  apply Hne. rewrite head_lookup in Hhd. rewrite last_lookup in Hlast.
  apply list_lookup_total_correct in Hhd, Hlast.
  replace (pred (length p)) with (length p - 1) in Hlast by lia. congruence.
Qed.

(** C6, as stated, fails: the self-loop of a self-referencing transfer is in
    [cycle_edges] and is counted by [circular_rate]. *)
Lemma self_loop_in_cycle_edges :
  ("A", "A") ∈ App.cycle_edges self_loop ∧
  App.circular_rate self_loop = Ok (1 # 1)%Q.
Proof. split; [by_compute | done]. Qed.

(** C6, amended. A self-referencing transfer is kept as a self-loop edge. No
    pair [(a, a)] is counted among the multi-hop pairs, in either script; the
    self-loop is a cycle of one node, so [(a, a)] is in [cycle_edges] and is
    counted by [circular_rate]. *)
Theorem self_referencing_transfers df a :
  (connects df a a →
     Nx.has_edge (App.G df) a a ∧ Nx.has_edge (MultihopBackend.G df) a a ∧
     (a, a) ∈ App.cycle_edges df) ∧
  ((a, a) ∉ App.multi_hop_pairs df) ∧
  ((a, a) ∉ MultihopBackend.unique_suspicious_pairs df).
Proof.
  split_and!.
  - intros Ha. split_and!; [by apply App_has_edge | by apply Backend_has_edge |].
    apply elem_of_cycle_edges. exists [a]. split; [by apply self_loop_cycle | by right].
  - apply not_elem_of_multi_hop_pairs.
  - apply not_elem_of_unique_suspicious_pairs.
Qed.

Lemma self_referencing_transfers_witness :
  connects self_loop "A" "A" ∧ ("A", "A") ∈ App.cycle_edges self_loop.
Proof.
  assert (connects self_loop "A" "A") as H.
  { exists (tx "A" "A" 10 1). split; [left | done]. }
  split; [exact H|].
  exact (proj2 (proj2 (proj1 (self_referencing_transfers self_loop "A") H))).
Defined.

(** ** The time window *)

Lemma days_le_iff delta :
  (Pd.days delta ≤ MultihopBackend.TIME_WINDOW_DAYS ↔ delta < 8 * Pd.ns_per_day)%Z.
Proof.
  unfold Pd.days, MultihopBackend.TIME_WINDOW_DAYS, Pd.ns_per_day.
  pose proof (Z.div_mod delta 86400000000000).
  pose proof (Z.mod_pos_bound delta 86400000000000). lia.
Qed.

Lemma py_max_spec x xs :
  py_max x xs ∈ x :: xs ∧ ∀ y, y ∈ x :: xs → (y ≤ py_max x xs)%Z.
Proof.
  unfold py_max. revert x. induction xs as [|a xs IH]; intros x; simpl.
  - split; [left|]. intros y ->%list_elem_of_singleton. lia.
  - destruct (IH (Z.max x a)) as [Hin Hub]. split.
    + apply elem_of_cons in Hin as [Heq|Hin]; [|by do 2 right].
      rewrite Heq. destruct (Z.max_spec x a) as [[_ ->]|[_ ->]]; [right|]; left.
    + intros y [->|[->|Hy]%elem_of_cons]%elem_of_cons.
      * etrans; [|apply Hub; left]. lia.
      * etrans; [|apply Hub; left]. lia.
      * apply Hub. by right.
Qed.

Lemma py_min_spec x xs :
  py_min x xs ∈ x :: xs ∧ ∀ y, y ∈ x :: xs → (py_min x xs ≤ y)%Z.
Proof.
  unfold py_min. revert x. induction xs as [|a xs IH]; intros x; simpl.
  - split; [left|]. intros y ->%list_elem_of_singleton. lia.
  - destruct (IH (Z.min x a)) as [Hin Hub]. split.
    + apply elem_of_cons in Hin as [Heq|Hin]; [|by do 2 right].
      rewrite Heq. destruct (Z.min_spec x a) as [[_ ->]|[_ ->]]; [|right]; left.
    + intros y [->|[->|Hy]%elem_of_cons]%elem_of_cons.
      * etrans; [apply Hub; left|]. lia.
      * etrans; [apply Hub; left|]. lia.
      * apply Hub. by right.
Qed.

(** Every edge of the backend's graph stores a date. *)
Lemma dated_set_edge u v attr es :
  is_Some (Nx.date attr) → dated es → dated (Nx.set_edge u v attr es).
Proof.
  intros Hd. induction 1 as [|[[u' v'] e] es He Hes IH]; simpl.
  - by apply Forall_singleton.
  - case_decide; constructor; try done. simpl.
    destruct Hd as [d ->]. by eexists.
Qed.

Lemma dated_Backend_G df : dated (Nx.edges (MultihopBackend.G df)).
Proof.
  rewrite Backend_G_from_frame. generalize Nx.empty, (Forall_nil_2 _ : dated (Nx.edges Nx.empty)).
  induction df as [|r df IH]; intros g Hg; [done|].
  rewrite from_frame_cons. apply IH. simpl. by apply dated_set_edge.
Qed.

Lemma get_edge_data_dated es u v e :
  dated es → Nx.get_edge_data es u v = Some e → is_Some (Nx.date e).
Proof.
  induction 1 as [|[[u' v'] e'] es He Hes IH]; simpl; [done|].
  case_decide; [by intros [= <-] | done].
Qed.

Lemma length_bind_singletons {A B} (f : A → list B) (l : list A) :
  (∀ x, x ∈ l → length (f x) = 1) → length (l ≫= f) = length l.
Proof.
  induction l as [|a l IH]; intros Hf; [done|]. csimpl.
  rewrite length_app, Hf, IH; [done| |left]. intros x Hx. apply Hf. by right.
Qed.

Lemma length_edge_dates g path :
  walk g path → dated (Nx.edges g) →
  length (MultihopBackend.edge_dates g path) = length path - 1.
Proof.
  intros Hw Hd. unfold MultihopBackend.edge_dates.
  rewrite length_bind_singletons; [by rewrite length_seq|].
  intros i [_ Hi]%elem_of_seq. simpl in Hi.
  assert (Nx.has_edge g (path !!! i) (path !!! (i + 1))) as He.
  { apply (walk_lookup g path i); [done|..]; rewrite ?Nat.add_1_r;
      apply list_lookup_lookup_total_lt; lia. }
  apply get_edge_data_is_Some in He as [e He]. rewrite He.
  by destruct (get_edge_data_dated _ _ _ _ Hd He) as [d ->].
Qed.

(** C4, as stated, fails: a path whose dates span seven days and twelve hours
    is recorded. *)
Lemma late_path_recorded :
  Nx.shortest_path (MultihopBackend.G late_chain) "A" "C" = Some ["A"; "B"; "C"] ∧
  MultihopBackend.edge_dates (MultihopBackend.G late_chain) ["A"; "B"; "C"]
    = [0; 648000000000000]%Z ∧
  (7 * Pd.ns_per_day < 648000000000000 - 0)%Z ∧
  ["A"; "B"; "C"] ∈ MultihopBackend.suspicious_paths late_chain.
Proof. split_and!; [done | done | done | by_compute]. Qed.

(** C4, amended. In windowed mode every edge of a shortest path contributes
    the date its slot holds, and a shortest path that meets the hop-length
    requirement is recorded as suspicious if and only if the span from the
    earliest to the latest of these dates, counted in whole days rounded down,
    is at most [TIME_WINDOW_DAYS = 7], that is, if and only if the span is
    less than 8 days; a path whose span is 8 days or more is never
    recorded. *)
Theorem windowed_path_recorded df src dst path :
  src ∈ Nx.nodes (MultihopBackend.G df) →
  dst ∈ Nx.nodes (MultihopBackend.G df) →
  src ≠ dst →
  Nx.shortest_path (MultihopBackend.G df) src dst = Some path →
  MultihopBackend.MIN_HOP_LENGTH ≤ length path →
  ∃ d ds,
    MultihopBackend.edge_dates (MultihopBackend.G df) path = d :: ds ∧
    length (d :: ds) = length path - 1 ∧
    (py_min d ds ∈ d :: ds ∧ py_max d ds ∈ d :: ds ∧
     ∀ x, x ∈ d :: ds → (py_min d ds ≤ x ≤ py_max d ds)%Z) ∧
    (path ∈ MultihopBackend.suspicious_paths df ↔
     (Pd.days (py_max d ds - py_min d ds) ≤ 7)%Z) ∧
    ((Pd.days (py_max d ds - py_min d ds) ≤ 7)%Z ↔
     (py_max d ds - py_min d ds < 8 * Pd.ns_per_day)%Z).
Proof.
  intros Hsrc Hdst Hne Hp Hlen.
  pose proof (shortest_path_sound _ _ _ _ Hp) as (Hw & _ & _).
  pose proof (length_edge_dates _ _ Hw (dated_Backend_G df)) as Hdates.
  unfold MultihopBackend.MIN_HOP_LENGTH in Hlen.
  destruct (MultihopBackend.edge_dates _ path) as [|d ds] eqn:Hed;
    [simpl in Hdates; lia|].
  exists d, ds. do 2 (split; [done|]). split; [|split; [|apply days_le_iff]].
  { destruct (py_min_spec d ds) as [? Hlo], (py_max_spec d ds) as [? Hhi].
    split_and!; [done..|]. intros x Hx. split; [by apply Hlo | by apply Hhi]. }
  rewrite elem_of_suspicious_paths. split.
  - intros (_ & _ & _ & _ & _ & _ & _ & Hwin). rewrite Hed in Hwin.
    by apply bool_decide_eq_true in Hwin.
  - intros Hwin. exists src, dst. split_and!; [done..|].
    rewrite Hed. by apply bool_decide_eq_true.
Qed.

Lemma windowed_path_recorded_witness :
  ∃ d ds,
    MultihopBackend.edge_dates (MultihopBackend.G chain3) ["A"; "B"; "C"] = d :: ds ∧
    length (d :: ds) = 2 ∧
    (py_min d ds ∈ d :: ds ∧ py_max d ds ∈ d :: ds ∧
     ∀ x, x ∈ d :: ds → (py_min d ds ≤ x ≤ py_max d ds)%Z) ∧
    (["A"; "B"; "C"] ∈ MultihopBackend.suspicious_paths chain3 ↔
     (Pd.days (py_max d ds - py_min d ds) ≤ 7)%Z) ∧
    ((Pd.days (py_max d ds - py_min d ds) ≤ 7)%Z ↔
     (py_max d ds - py_min d ds < 8 * Pd.ns_per_day)%Z).
Proof.
  apply (windowed_path_recorded chain3 "A" "C" ["A"; "B"; "C"]).
  - by_compute.
  - by_compute.
  - discriminate.
  - reflexivity.
  - vm_compute. lia.
Defined.

(** ** Multi-hop rates *)

Lemma total_transactions_distinct df :
  MultihopBackend.total_transactions df =
  size (list_to_set (C := gset (Code * Code))
          ((λ r, (source_code r, destination_code r)) <$> df)).
Proof.
  unfold MultihopBackend.total_transactions, Nx.number_of_edges.
  rewrite <- (length_fmap fst).
  rewrite <- (size_list_to_set (C := gset (Code * Code)))
    by apply Backend_G_well_formed.
  f_equal. apply set_eq. intros [u v]. rewrite !elem_of_list_to_set.
  change ((u, v) ∈ (Nx.edges (MultihopBackend.G df)).*1)
    with (Nx.has_edge (MultihopBackend.G df) u v).
  rewrite Backend_has_edge, list_elem_of_fmap. unfold connects. split.
  - intros (r & Hr & <- & <-). by exists r.
  - intros (r & [= -> ->] & Hr). by exists r.
Qed.

(** C2. The code divides by the number of edges of the graph, which is the
    number of distinct (source, destination) pairs of the ledger. On
    [repeat_chain], three transfers over two pairs, the one suspicious pair
    gives the rate 1/2, not 1/3. *)
Theorem suspicious_rate_denominator :
  (∀ df, MultihopBackend.total_transactions df =
         size (list_to_set (C := gset (Code * Code))
                 ((λ r, (source_code r, destination_code r)) <$> df))) ∧
  length repeat_chain = 3 ∧
  MultihopBackend.unique_suspicious_pairs repeat_chain = {[ ("A", "C") ]} ∧
  MultihopBackend.total_transactions repeat_chain = 2 ∧
  MultihopBackend.suspicious_rate repeat_chain = Ok (1 # 2)%Q ∧
  ¬ (1 # 2 == 1 # 3)%Q.
Proof.
  split_and!; [apply total_transactions_distinct | done | by vm_compute | done..].
Qed.

Lemma path_between_nodes g s t p :
  well_formed g → path_between g s t p → s ≠ t → s ∈ Nx.nodes g ∧ t ∈ Nx.nodes g.
Proof.
  intros Hg (Hw & Hh & Hl) Hne.
  assert (s ∈ Nx.nodes g) as Hs.
  { destruct Hw as [a|a b p Hab Hp]; simpl in *; [congruence|].
    injection Hh as ->. by eapply wf_source. }
  split; [done|].
  pose proof (path_between_reach g s t p (conj Hw (conj Hh Hl))) as Hr.
  destruct Hr; [done|]. by eapply wf_target.
Qed.

Lemma elem_of_multi_hop_pairs df s t :
  (s, t) ∈ App.multi_hop_pairs df ↔
  s ≠ t ∧ (∃ p, path_between (App.G df) s t p) ∧
  ∀ p, path_between (App.G df) s t p → 4 ≤ length p.
Proof.
  pose proof (App_G_well_formed df) as Hg.
  unfold App.multi_hop_pairs, Nx.shortest_path_length.
  rewrite elem_of_list_to_set, list_elem_of_bind. split.
  - intros (s' & (t' & Hin & Ht)%list_elem_of_bind & Hs).
    case_decide as Hne; [|by apply elem_of_nil in Hin].
    destruct (Nx.shortest_path (App.G df) s' t') as [p|] eqn:Hp; simpl in Hin;
      [|by apply elem_of_nil in Hin].
    case_decide as Hlen; [|by apply elem_of_nil in Hin].
    apply list_elem_of_singleton in Hin as [= -> ->].
    split_and!; [done | exists p; by apply shortest_path_sound |].
    intros p' Hp'.
    destruct (shortest_path_complete _ _ _ _ Hg Hs Hp') as (p0 & Hp0 & _ & Hle).
    rewrite Hp in Hp0. injection Hp0 as <-. lia.
  - intros (Hne & [p' Hp'] & Hmin).
    destruct (path_between_nodes _ _ _ _ Hg Hp' Hne) as [Hs Ht].
    destruct (shortest_path_complete _ _ _ _ Hg Hs Hp') as (p & Hp & Hpb & _).
    exists s. split; [|done]. apply list_elem_of_bind. exists t. split; [|done].
    rewrite decide_True by done. rewrite Hp. simpl.
    apply Hmin in Hpb. rewrite decide_True by lia. left.
Qed.

(** C3. [app.py] compares the number of edges of the shortest path with 3: a
    pair counts there exactly when it is connected and every connecting path
    has at least four nodes. [multihop_backend.py] compares the number of
    nodes with 3. On [chain3] the shortest path from [A] to [C] has three
    nodes: the backend records it, the dashboard does not count the pair. *)
Theorem multi_hop_three_nodes :
  (∀ df s t,
     (s, t) ∈ App.multi_hop_pairs df ↔
     s ≠ t ∧ (∃ p, path_between (App.G df) s t p) ∧
     ∀ p, path_between (App.G df) s t p → 4 ≤ length p) ∧
  Nx.shortest_path (App.G chain3) "A" "C" = Some ["A"; "B"; "C"] ∧
  Nx.shortest_path_length (App.G chain3) "A" "C" = Some 2 ∧
  App.multi_hop_pairs chain3 = ∅ ∧
  App.multi_hop_rate chain3 = Ok (0 # 2)%Q ∧
  MultihopBackend.suspicious_paths chain3 = [["A"; "B"; "C"]] ∧
  MultihopBackend.unique_suspicious_pairs chain3 = {[ ("A", "C") ]} ∧
  MultihopBackend.suspicious_rate chain3 = Ok (1 # 2)%Q.
Proof. split_and!; [apply elem_of_multi_hop_pairs | by vm_compute..]. Qed.

(** ** The empty ledger *)

(** C1. On the empty ledger the two guarded rates are 0 and the backend
    returns the rate 0, but [mirrored_rate] and [corridor_rate] divide by zero
    and the dashboard script stops with [ZeroDivisionError]. *)
Theorem empty_ledger :
  App.multi_hop_rate [] = Ok 0%Q ∧
  App.circular_rate [] = Ok 0%Q ∧
  MultihopBackend.suspicious_rate [] = Ok 0%Q ∧
  App.mirrored_rate [] = Raise ZeroDivisionError ∧
  App.corridor_rate [] = Raise ZeroDivisionError ∧
  App.main [] = Raise ZeroDivisionError.
Proof. split_and!; reflexivity. Qed.

(** ** Mirrored flows *)



Section counting.
Context {K : Type} `{EqDecision K}.
Variable key : Row → K.

Lemma sum_list_fmap_add {A} (f h : A → nat) (l : list A) :
  sum_list ((λ x, f x + h x) <$> l) = sum_list (f <$> l) + sum_list (h <$> l).
Proof. induction l as [|a l IH]; csimpl; [done|]. rewrite IH. lia. Qed.

Lemma sum_list_indicator (x : K) (l : list K) :
  NoDup l →
  sum_list ((λ k, if decide (x = k) then 1 else 0) <$> l) = if decide (x ∈ l) then 1 else 0.
Proof.
  induction 1 as [|a l Hnin Hnd IH]; csimpl; [done|]. rewrite IH.
  destruct (decide (x = a)) as [->|Hne].
  - rewrite (decide_False (P := a ∈ l)) by done. rewrite decide_True; [done | left].
  - destruct (decide (x ∈ l)).
    + rewrite decide_True; [done | by right].
    + rewrite decide_False; [done|]. by intros [?|?]%elem_of_cons.
Qed.

Lemma length_get_group_cons r df k :
  length (Pd.get_group key (r :: df) k) =
  (if decide (key r = k) then 1 else 0) + length (Pd.get_group key df k).
Proof. unfold Pd.get_group. rewrite filter_cons. by case_decide. Qed.

(** Rows kept by a condition on their key, counted group by group. *)
Lemma length_filter_by_key (p : K → bool) (ks : list K) df :
  NoDup ks → (∀ r, r ∈ df → key r ∈ ks) →
  length (filter (λ r, p (key r) = true) df) =
  sum_list ((λ k, length (Pd.get_group key df k)) <$> filter (λ k, p k = true) ks).
Proof.
  intros Hnd. induction df as [|r df IH]; intros Hks.
  - csimpl. induction (filter _ ks) as [|k l IHl]; [done|]. csimpl. by rewrite <- IHl.
  - rewrite filter_cons.
    erewrite (list_fmap_ext _ (λ k, _ + _)); [|intros; apply length_get_group_cons].
    rewrite sum_list_fmap_add, sum_list_indicator by (by apply NoDup_filter).
    rewrite <- IH by (intros r' Hr'; apply Hks; by right).
    destruct (decide (p (key r) = true)) as [HP|HP].
    + rewrite decide_True; [done|]. apply list_elem_of_filter. split; [done|].
      apply Hks. left.
    + rewrite decide_False; [done|]. by intros [? _]%list_elem_of_filter.
Qed.

End counting.




(** ** Corridors *)

#[global] Instance count_ge_total {K : Type} : Total (@Pd.count_ge K).
Proof. intros a b. unfold Pd.count_ge. lia. Qed.

#[global] Instance count_ge_trans {K : Type} : Transitive (@Pd.count_ge K).
Proof. intros a b c. unfold Pd.count_ge. lia. Qed.

Lemma length_groupby_size {K} `{EqDecision K} (key : Row → K) df :
  length (Pd.groupby_size key df) = Pd.nunique key df.
Proof. unfold Pd.groupby_size, Pd.groupby, Pd.nunique. by rewrite !length_fmap. Qed.

Lemma elem_of_groupby_size {K} `{EqDecision K} (key : Row → K) df k n :
  (k, n) ∈ Pd.groupby_size key df ↔
  n = length (filter (λ r, key r = k) df) ∧ ∃ r, r ∈ df ∧ key r = k.
Proof.
  unfold Pd.groupby_size, Pd.groupby. rewrite <- list_fmap_compose, list_elem_of_fmap.
  unfold Pd.unique. setoid_rewrite elem_of_remove_dups.
  setoid_rewrite list_elem_of_fmap. split.
  - intros (k' & [= -> ->] & r & -> & Hr). split; [done|by exists r].
  - intros (-> & r & Hr & <-). exists (key r). split; [done|by exists r].
Qed.

Lemma length_corridor_counts df :
  length (App.corridor_counts df) = min 15 (Pd.nunique App.corridor df).
Proof.
  unfold App.corridor_counts, Pd.head, Pd.sort_values_desc.
  by rewrite length_take, merge_sort_Permutation, length_groupby_size.
Qed.



(** * Further properties of the two scripts *)

(** ** The graph *)

Lemma elem_of_nodes_from_frame attr df g v :
  v ∈ Nx.nodes (from_frame attr g df) ↔
  v ∈ Nx.nodes g ∨ ∃ row, row ∈ df ∧ (source_code row = v ∨ destination_code row = v).
Proof.
  revert g. induction df as [|r df IH]; intros g.
  - split; [by left|]. intros [?|(row & ?%elem_of_nil & _)]; done.
  - rewrite from_frame_cons, IH. simpl. rewrite !elem_of_add_node. split.
    + intros [[->|[->|?]]|(row & ? & ?)].
      * right. exists r. split; [left | by right].
      * right. exists r. split; [left | by left].
      * by left.
      * right. exists row. split; [by right | done].
    + intros [?|(row & [->|?]%elem_of_cons & Hv)].
      * left. by do 2 right.
      * left. destruct Hv as [<-|<-]; [right; by left | by left].
      * right. by exists row.
Qed.

Lemma from_frame_structure attr1 attr2 df g1 g2 :
  Nx.nodes g1 = Nx.nodes g2 → Nx.edge_pairs g1 = Nx.edge_pairs g2 →
  Nx.nodes (from_frame attr1 g1 df) = Nx.nodes (from_frame attr2 g2 df) ∧
  Nx.edge_pairs (from_frame attr1 g1 df) = Nx.edge_pairs (from_frame attr2 g2 df).
Proof.
  revert g1 g2. induction df as [|r df IH]; intros g1 g2 Hn He; [done|].
  rewrite !from_frame_cons. apply IH; simpl.
  - by rewrite Hn.
  - unfold Nx.edge_pairs in *. simpl. by rewrite !set_edge_pairs, He.
Qed.

Lemma same_structure df :
  Nx.nodes (MultihopBackend.G df) = Nx.nodes (App.G df) ∧
  Nx.edge_pairs (MultihopBackend.G df) = Nx.edge_pairs (App.G df).
Proof. rewrite Backend_G_from_frame, App_G_from_frame. by apply from_frame_structure. Qed.

Lemma expand_edge_pairs g g' seen frontier :
  Nx.edge_pairs g = Nx.edge_pairs g' → Nx.expand g seen frontier = Nx.expand g' seen frontier.
Proof.
  intros He. revert seen. induction frontier as [|p ps IH]; intros seen; [done|].
  simpl. unfold Nx.successors. by rewrite He, IH.
Qed.

Lemma bfs_edge_pairs fuel g g' t seen frontier :
  Nx.edge_pairs g = Nx.edge_pairs g' →
  Nx.bfs fuel g t seen frontier = Nx.bfs fuel g' t seen frontier.
Proof.
  intros He. revert seen frontier. induction fuel as [|fuel IH]; intros seen frontier; [done|].
  simpl. rewrite (expand_edge_pairs g g') by done.
  destruct (list_find _ frontier); [done|].
  destruct (Nx.expand g' seen frontier); [done|]. apply IH.
Qed.

Lemma same_shortest_path df s t :
  Nx.shortest_path (MultihopBackend.G df) s t = Nx.shortest_path (App.G df) s t.
Proof.
  destruct (same_structure df) as [Hn He]. unfold Nx.shortest_path.
  rewrite Hn. by apply bfs_edge_pairs.
Qed.

Lemma size_list_to_set_le (l : list (Code * Code)) :
  size (list_to_set (C := gset (Code * Code)) l) ≤ length l.
Proof.
  induction l as [|x l IH]; [done|]. simpl.
  destruct (decide (x ∈ (list_to_set l : gset (Code * Code)))) as [Hx|Hx].
  - replace ({[x]} ∪ list_to_set l) with (list_to_set (C := gset (Code * Code)) l)
      by set_solver. lia.
  - rewrite size_union, size_singleton by set_solver. lia.
Qed.

Lemma size_list_to_set_eq (l : list (Code * Code)) :
  size (list_to_set (C := gset (Code * Code)) l) = length l ↔ NoDup l.
Proof.
  split; [|apply size_list_to_set].
  induction l as [|x l IH]; intros Hsize; [apply NoDup_nil_2|]. simpl in Hsize.
  pose proof (size_list_to_set_le l) as Hle.
  destruct (decide (x ∈ (list_to_set l : gset (Code * Code)))) as [Hx|Hx].
  - replace ({[x]} ∪ list_to_set l) with (list_to_set (C := gset (Code * Code)) l)
      in Hsize by set_solver. lia.
  - rewrite size_union, size_singleton in Hsize by set_solver.
    apply NoDup_cons. split; [by rewrite elem_of_list_to_set in Hx | apply IH; lia].
Qed.

(** The transfers of a ledger, as (source, destination) pairs. *)
Lemma App_total_edges_distinct df :
  App.total_edges df =
  size (list_to_set (C := gset (Code * Code))
          ((λ r, (source_code r, destination_code r)) <$> df)).
Proof.
  rewrite <- total_transactions_distinct.
  unfold App.total_edges, MultihopBackend.total_transactions, Nx.number_of_edges.
  destruct (same_structure df) as [_ He]. unfold Nx.edge_pairs in He.
  by rewrite <- (length_fmap fst), <- He, length_fmap.
Qed.

(** X1. The nodes of the graph are the accounts that occur in the ledger as a
    source or a destination, each once; its edges are the pairs some row
    connects, each once. *)
Theorem graph_of_ledger df :
  NoDup (Nx.nodes (App.G df)) ∧
  (∀ v, v ∈ Nx.nodes (App.G df) ↔
        ∃ row, row ∈ df ∧ (source_code row = v ∨ destination_code row = v)) ∧
  NoDup (Nx.edge_pairs (App.G df)) ∧
  (∀ u v, (u, v) ∈ Nx.edge_pairs (App.G df) ↔
          ∃ row, row ∈ df ∧ source_code row = u ∧ destination_code row = v).
Proof.
  pose proof (App_G_well_formed df) as Hg. split_and!.
  - apply Hg.
  - intros v. rewrite App_G_from_frame, elem_of_nodes_from_frame. split; [|by right].
    intros [H|H]; [by apply elem_of_nil in H | done].
  - apply Hg.
  - intros u v. apply App_has_edge.
Qed.

(** X2. The number of edges is the number of distinct (source, destination)
    pairs of the ledger: it never exceeds the number of rows, and equals it
    exactly when no pair occurs in two rows. *)
Theorem total_edges_distinct_pairs df :
  App.total_edges df =
    size (list_to_set (C := gset (Code * Code))
            ((λ r, (source_code r, destination_code r)) <$> df)) ∧
  App.total_edges df ≤ length df ∧
  (App.total_edges df = length df ↔
   NoDup ((λ r, (source_code r, destination_code r)) <$> df)).
Proof.
  rewrite App_total_edges_distinct. split_and!; [done | |].
  - etrans; [apply size_list_to_set_le|]. by rewrite length_fmap.
  - rewrite <- size_list_to_set_eq. by rewrite length_fmap.
Qed.

(** X3. The two scripts analyse the same graph: the backend's graph has the
    nodes and the edges of the dashboard's, in the same order, the two edge
    counts agree, and the shortest path found between two accounts is the
    same. *)
Theorem backend_graph_is_dashboard_graph df :
  Nx.nodes (MultihopBackend.G df) = Nx.nodes (App.G df) ∧
  Nx.edge_pairs (MultihopBackend.G df) = Nx.edge_pairs (App.G df) ∧
  MultihopBackend.total_transactions df = App.total_edges df ∧
  ∀ s t, Nx.shortest_path (MultihopBackend.G df) s t = Nx.shortest_path (App.G df) s t.
Proof.
  destruct (same_structure df) as [Hn He]. split_and!; [done | done | |].
  - by rewrite total_transactions_distinct, App_total_edges_distinct.
  - apply same_shortest_path.
Qed.

Lemma get_edge_data_set_edge_eq u v attr es :
  ∃ e, Nx.get_edge_data (Nx.set_edge u v attr es) u v = Some e ∧
       (∀ a, Nx.amount attr = Some a → Nx.amount e = Some a) ∧
       (∀ d, Nx.date attr = Some d → Nx.date e = Some d).
Proof.
  induction es as [|[[u' v'] e'] es IH]; simpl.
  - rewrite decide_True by done. by exists attr.
  - destruct (decide ((u', v') = (u, v))) as [Heq|Hne]; simpl.
    + rewrite decide_True by done. exists (Nx.update e' attr).
      split_and!; [done|..]; intros x Hx; simpl; by rewrite Hx.
    + by rewrite decide_False.
Qed.

Lemma get_edge_data_set_edge_ne u v u' v' attr es :
  (u, v) ≠ (u', v') →
  Nx.get_edge_data (Nx.set_edge u v attr es) u' v' = Nx.get_edge_data es u' v'.
Proof.
  intros Hne. induction es as [|[[a b] e] es IH]; simpl.
  - by rewrite decide_False.
  - destruct (decide ((a, b) = (u, v))) as [Heq|Hne']; simpl.
    + rewrite !decide_False by congruence. done.
    + destruct (decide ((a, b) = (u', v'))); [done | apply IH].
Qed.

Lemma from_frame_app attr g df1 df2 :
  from_frame attr g (df1 ++ df2) = from_frame attr (from_frame attr g df1) df2.
Proof. apply foldl_app. Qed.

Lemma get_edge_data_from_frame_other attr g df u v :
  (∀ r, r ∈ df → (source_code r, destination_code r) ≠ (u, v)) →
  Nx.get_edge_data (Nx.edges (from_frame attr g df)) u v = Nx.get_edge_data (Nx.edges g) u v.
Proof.
  revert g. induction df as [|r df IH]; intros g Hdf; [done|].
  rewrite from_frame_cons, IH by (intros r' Hr'; apply Hdf; by right).
  simpl. apply get_edge_data_set_edge_ne, Hdf. left.
Qed.

Lemma get_edge_data_last attr g df1 row df2 :
  (∀ r, r ∈ df2 →
        (source_code r, destination_code r) ≠ (source_code row, destination_code row)) →
  ∃ e, Nx.get_edge_data (Nx.edges (from_frame attr g (df1 ++ row :: df2)))
         (source_code row) (destination_code row) = Some e ∧
       (∀ a, Nx.amount (attr row) = Some a → Nx.amount e = Some a) ∧
       (∀ d, Nx.date (attr row) = Some d → Nx.date e = Some d).
Proof.
  intros Hlast. rewrite from_frame_app, from_frame_cons.
  rewrite get_edge_data_from_frame_other by done. simpl.
  apply get_edge_data_set_edge_eq.
Qed.

(** X4. A pair of accounts has one edge, and the edge holds what the last
    transfer between the two wrote: its amount, and in the backend its date.
    Earlier transfers of the pair leave no trace. *)
Theorem edge_holds_last_transfer df1 row df2 :
  (∀ r, r ∈ df2 →
        (source_code r, destination_code r) ≠ (source_code row, destination_code row)) →
  (∃ e, Nx.get_edge_data (Nx.edges (App.G (df1 ++ row :: df2)))
          (source_code row) (destination_code row) = Some e ∧
        Nx.amount e = Some (cc1_lcu_amount row)) ∧
  (∃ e, Nx.get_edge_data (Nx.edges (MultihopBackend.G (df1 ++ row :: df2)))
          (source_code row) (destination_code row) = Some e ∧
        Nx.amount e = Some (cc1_lcu_amount row) ∧ Nx.date e = Some (date row)).
Proof.
  intros Hlast. split.
  - rewrite App_G_from_frame.
    destruct (get_edge_data_last
      (λ row, {| Nx.amount := Some (cc1_lcu_amount row); Nx.date := None |})
      Nx.empty df1 row df2 Hlast) as (e & He & Ha & _).
    exists e. split; [done|]. by apply Ha.
  - rewrite Backend_G_from_frame.
    destruct (get_edge_data_last
      (λ r, {| Nx.amount := Some (cc1_lcu_amount r); Nx.date := Some (date r) |})
      Nx.empty df1 row df2 Hlast) as (e & He & Ha & Hd).
    exists e. split_and!; [done | by apply Ha | by apply Hd].
Qed.

Lemma edge_holds_last_transfer_witness :
  ∃ e, Nx.get_edge_data (Nx.edges (MultihopBackend.G repeat_chain)) "A" "B" = Some e ∧
       Nx.amount e = Some 10%Q ∧ Nx.date e = Some (3 * Pd.ns_per_day)%Z.
Proof.
  apply (edge_holds_last_transfer [tx "A" "B" 10 1; tx "B" "C" 10 2] (tx "A" "B" 10 3) []).
  intros r Hr. by apply elem_of_nil in Hr.
Defined.

(** ** The four rates and the final rate *)

Lemma ratio_eq_0 n d : 0 < d → (ratio n d == 0)%Q ↔ n = 0.
Proof. intros Hd. unfold ratio, Qeq. simpl. lia. Qed.

Lemma ratio_eq_1 n d : 0 < d → (ratio n d == 1)%Q ↔ n = d.
Proof. intros Hd. unfold ratio, Qeq. simpl. rewrite Zpos_of_nat by done. lia. Qed.

Lemma ratio_pos n d : 0 < n → (0 < ratio n d)%Q.
Proof. intros Hn. unfold ratio, Qlt. simpl. lia. Qed.

Lemma length_filter_all {A} (P : A → Prop) `{!∀ x, Decision (P x)} (l : list A) :
  length (filter P l) = length l ↔ ∀ x, x ∈ l → P x.
Proof.
  induction l as [|a l IH]; [split; [by intros _ x ?%elem_of_nil | done]|].
  rewrite filter_cons. pose proof (length_filter P l) as Hle.
  destruct (decide (P a)) as [Ha|Ha]; simpl.
  - split.
    + intros Hlen x [->|Hx]%elem_of_cons; [done|]. apply IH; [lia | done].
    + intros Hall. f_equal. apply IH. intros x Hx. apply Hall. by right.
  - split; [lia|]. intros Hall. destruct Ha. apply Hall. left.
Qed.

Lemma length_filter_none {A} (P : A → Prop) `{!∀ x, Decision (P x)} (l : list A) :
  length (filter P l) = 0 ↔ ∀ x, x ∈ l → ¬ P x.
Proof.
  induction l as [|a l IH]; [split; [by intros _ x ?%elem_of_nil | done]|].
  rewrite filter_cons. destruct (decide (P a)) as [Ha|Ha]; simpl.
  - split; [lia|]. intros Hall. destruct (Hall a); [left | done].
  - rewrite IH. split.
    + intros Hall x [->|Hx]%elem_of_cons; [done | by apply Hall].
    + intros Hall x Hx. apply Hall. by right.
Qed.

Lemma nunique_pos {K} `{EqDecision K} (key : Row → K) df : df ≠ [] → 0 < Pd.nunique key df.
Proof.
  destruct df as [|r df]; [done|]. intros _. unfold Pd.nunique, Pd.unique.
  assert (key r ∈ remove_dups (key <$> r :: df)) as Hin.
  { apply elem_of_remove_dups. left. }
  destruct (remove_dups _); [by apply elem_of_nil in Hin | simpl; lia].
Qed.

Lemma multi_hop_rate_Ok df : ∃ q, App.multi_hop_rate df = Ok q ∧ (0 <= q)%Q.
Proof.
  unfold App.multi_hop_rate. case_decide as H0; [|by exists 0%Q].
  rewrite py_div_Ok by lia. eexists. split; [done|].
  unfold ratio, Qle. simpl. lia.
Qed.

Lemma circular_rate_Ok df :
  ∃ q, App.circular_rate df = Ok q ∧ (0 <= q)%Q ∧ (q <= 1)%Q.
Proof.
  unfold App.circular_rate. case_decide as H0; [|by exists 0%Q].
  rewrite py_div_Ok by lia. eexists. split; [done|].
  apply ratio_bounds; [lia | apply cycle_edges_size].
Qed.



(** X6. The dashboard script computes its rates exactly on the non-empty
    ledgers: there it returns the four rates and their weighted sum, and on
    the empty ledger, and only there, it stops with an error. *)
Theorem main_defined df :
  ((∃ m, App.main df = Ok m) ↔ df ≠ []) ∧
  (df ≠ [] →
   ∃ mh ci mi co,
     App.multi_hop_rate df = Ok mh ∧ App.circular_rate df = Ok ci ∧
     App.mirrored_rate df = Ok mi ∧ App.corridor_rate df = Ok co ∧
     App.main df = Ok {| App.m_multi_hop_rate := mh; App.m_circular_rate := ci;
                         App.m_mirrored_rate := mi; App.m_corridor_rate := co;
                         App.m_hawala_rate := App.hawala_rate mh ci mi co |}).
Proof.
  assert (df ≠ [] →
   ∃ mh ci mi co,
     App.multi_hop_rate df = Ok mh ∧ App.circular_rate df = Ok ci ∧
     App.mirrored_rate df = Ok mi ∧ App.corridor_rate df = Ok co ∧
     App.main df = Ok {| App.m_multi_hop_rate := mh; App.m_circular_rate := ci;
                         App.m_mirrored_rate := mi; App.m_corridor_rate := co;
                         App.m_hawala_rate := App.hawala_rate mh ci mi co |}) as Hmain.
  { intros Hdf.
    destruct (multi_hop_rate_Ok df) as (mh & Hmh & _).
    destruct (circular_rate_Ok df) as (ci & Hci & _).
    assert (App.mirrored_rate df = Ok (ratio (length (App.mirrored_df df)) (length df)))
      as Hmi by (apply py_div_Ok; destruct df; [done | simpl; lia]).
    assert (App.corridor_rate df
            = Ok (ratio (length (App.corridor_counts df)) (Pd.nunique App.corridor df)))
      as Hco by (by apply py_div_Ok, nunique_pos).
    eexists _, _, _, _. split_and!; [done..|].
    unfold App.main. by rewrite Hmh, Hci, Hmi, Hco. }
  split; [|done]. split.
  - intros [m Hm] ->. done.
  - intros Hdf. destruct (Hmain Hdf) as (mh & ci & mi & co & _ & _ & _ & _ & Hm). by eexists.
Qed.

Lemma main_defined_witness : ∃ m, App.main ring3 = Ok m.
Proof. apply (proj1 (main_defined ring3)). discriminate. Defined.

(** X7. On a non-empty ledger [mirrored_rate] lies between 0 and 1; it is 0
    exactly when no rounded amount is shared by more than three transfers and
    1 exactly when every transfer shares its rounded amount with more than
    three. *)
Theorem mirrored_rate_range df :
  df ≠ [] →
  ∃ q, App.mirrored_rate df = Ok q ∧ (0 <= q)%Q ∧ (q <= 1)%Q ∧
       ((q == 0)%Q ↔
        ∀ row, row ∈ df →
          length (Pd.get_group App.rounded_amount df (App.rounded_amount row)) ≤ 3) ∧
       ((q == 1)%Q ↔
        ∀ row, row ∈ df →
          3 < length (Pd.get_group App.rounded_amount df (App.rounded_amount row))).
Proof.
  intros Hdf. assert (0 < length df) as Hlen by (destruct df; [done | simpl; lia]).
  exists (ratio (length (App.mirrored_df df)) (length df)).
  unfold App.mirrored_rate. rewrite py_div_Ok by done.
  unfold App.mirrored_df, Pd.groupby_filter.
  split_and!; [done | | | |].
  - by apply ratio_bounds; [|apply length_filter].
  - by apply ratio_bounds; [|apply length_filter].
  - rewrite ratio_eq_0, length_filter_none by done.
    apply forall_proper; intros row. rewrite bool_decide_eq_true. split; intros H ?; [|by apply Nat.le_ngt, H].
    apply Nat.le_ngt. intros ?. by apply H.
  - rewrite ratio_eq_1, length_filter_all by done.
    apply forall_proper; intros row. by rewrite bool_decide_eq_true.
Qed.

Lemma mirrored_rate_range_witness :
  ∃ q, App.mirrored_rate (amounts [100; 100; 100; 100; 250]%Z) = Ok q ∧
       (0 <= q)%Q ∧ (q <= 1)%Q.
Proof.
  destruct (mirrored_rate_range (amounts [100; 100; 100; 100; 250]%Z))
    as (q & Hq & H0 & H1 & _); [discriminate|].
  exists q. split_and!; [exact Hq | exact H0 | exact H1].
Defined.

(** X8. On a non-empty ledger [corridor_rate] is positive and at most 1, and
    it is 1 exactly when the ledger has at most 15 distinct corridors. *)
Theorem corridor_rate_range df :
  df ≠ [] →
  ∃ q, App.corridor_rate df = Ok q ∧ (0 < q)%Q ∧ (q <= 1)%Q ∧
       ((q == 1)%Q ↔ Pd.nunique App.corridor df ≤ 15).
Proof.
  intros Hdf. pose proof (nunique_pos App.corridor df Hdf) as Hn.
  exists (ratio (min 15 (Pd.nunique App.corridor df)) (Pd.nunique App.corridor df)).
  unfold App.corridor_rate. rewrite length_corridor_counts, py_div_Ok by done.
  split_and!; [done | apply ratio_pos; lia | apply ratio_bounds; lia |].
  rewrite ratio_eq_1 by done. lia.
Qed.

Lemma corridor_rate_range_witness :
  ∃ q, App.corridor_rate ring3 = Ok q ∧ (0 < q)%Q ∧ (q <= 1)%Q.
Proof.
  destruct (corridor_rate_range ring3) as (q & Hq & H0 & H1 & _); [discriminate|].
  exists q. split_and!; [exact Hq | exact H0 | exact H1].
Defined.

Lemma NoDup_groupby_size_keys {K} `{EqDecision K} (key : Row → K) df :
  NoDup (Pd.groupby_size key df).*1.
Proof.
  unfold Pd.groupby_size, Pd.groupby. rewrite <- !list_fmap_compose.
  rewrite (list_fmap_ext _ id (Pd.unique key df)) by done.
  rewrite list_fmap_id. apply NoDup_remove_dups.
Qed.

(** X9. [corridor_counts] lists at most 15 corridors, each once and with the
    number of its transfers, which is at least 1, in descending order of that
    number; no corridor left out has more transfers than a listed one. *)
Theorem corridor_counts_top df :
  length (App.corridor_counts df) ≤ 15 ∧
  NoDup (App.corridor_counts df).*1 ∧
  StronglySorted Pd.count_ge (App.corridor_counts df) ∧
  (∀ k n, (k, n) ∈ App.corridor_counts df →
          n = length (filter (λ r, App.corridor r = k) df) ∧ 1 ≤ n) ∧
  (∀ k n k' n',
     (k, n) ∈ App.corridor_counts df →
     (k', n') ∈ Pd.groupby_size App.corridor df →
     (k', n') ∉ App.corridor_counts df → n' ≤ n).
Proof.
  unfold App.corridor_counts, Pd.head.
  set (ranking := Pd.sort_values_desc (Pd.groupby_size App.corridor df)).
  assert (ranking ≡ₚ Pd.groupby_size App.corridor df) as Hperm
    by apply merge_sort_Permutation.
  assert (StronglySorted Pd.count_ge ranking) as Hsorted
    by apply (StronglySorted_merge_sort _).
  rewrite <- (take_drop 15 ranking) in Hsorted.
  split_and!.
  - rewrite length_take. lia.
  - apply (sublist_NoDup _ ranking.*1).
    + rewrite Hperm. apply NoDup_groupby_size_keys.
    + rewrite fmap_take. apply sublist_take.
  - by eapply StronglySorted_app_1_l.
  - intros k n Hin%subseteq_take. rewrite Hperm in Hin.
    apply elem_of_groupby_size in Hin as [-> (r & Hr & Hk)]. split; [done|].
    assert (r ∈ filter (λ r, App.corridor r = k) df) as Hin
      by (by apply list_elem_of_filter).
    destruct (filter _ df); [by apply elem_of_nil in Hin | simpl; lia].
  - intros k n k' n' Hin Hin' Hout.
    rewrite <- Hperm, <- (take_drop 15 ranking), elem_of_app in Hin'.
    destruct Hin' as [?|Hin']; [done|].
    apply (StronglySorted_app_1_elem_of _ _ _ (k, n) (k', n') Hsorted Hin Hin').
Qed.

(** ** Multi-hop pairs and suspicious paths *)

Lemma walk_app_inv_r g p q : walk g (p ++ q) → q ≠ [] → walk g q.
Proof.
  induction p as [|a p IH]; intros Hw Hq; [done|].
  apply IH; [|done]. apply (walk_tail g a); [done|]. by destruct p, q.
Qed.

Lemma walk_glue g p x q : walk g (p ++ [x]) → walk g (x :: q) → walk g (p ++ x :: q).
Proof.
  induction p as [|a p IH]; intros Hp Hq; [done|].
  destruct p as [|b p]; simpl in *.
  - inversion Hp; subst. by constructor.
  - inversion Hp; subst. constructor; [done|]. by apply IH.
Qed.

Lemma not_NoDup_split (p : list Code) :
  ¬ NoDup p → ∃ x l1 l2 l3, p = l1 ++ x :: l2 ++ x :: l3.
Proof.
  induction p as [|a p IH]; intros Hnd; [destruct Hnd; apply NoDup_nil_2|].
  destruct (decide (a ∈ p)) as [Ha|Ha].
  - apply list_elem_of_split in Ha as (l2 & l3 & ->). by exists a, [], l2, l3.
  - destruct IH as (x & l1 & l2 & l3 & ->).
    + intros Hp. apply Hnd. by apply NoDup_cons.
    + by exists x, (a :: l1), l2, l3.
Qed.

(** A path that visits a node twice can be cut short. *)
Lemma path_between_shortcut g s t p :
  path_between g s t p → ¬ NoDup p →
  ∃ p', path_between g s t p' ∧ length p' < length p.
Proof.
  intros (Hw & Hh & Hl) (x & l1 & l2 & l3 & ->)%not_NoDup_split.
  exists (l1 ++ x :: l3). split; [split_and!|].
  - apply walk_glue.
    + apply (walk_app_inv_l g _ (l2 ++ x :: l3)); [|by destruct l1].
      by rewrite <- app_assoc.
    + apply (walk_app_inv_r g (l1 ++ x :: l2)); [|done]. by rewrite <- app_assoc.
  - by destruct l1.
  - rewrite last_app_cons. rewrite last_app_cons in Hl.
    change (x :: l2 ++ x :: l3) with ((x :: l2) ++ x :: l3) in Hl.
    by rewrite last_app_cons in Hl.
  - rewrite !length_app. simpl. rewrite length_app. simpl. lia.
Qed.

Lemma shortest_path_NoDup g s t p :
  well_formed g → s ∈ Nx.nodes g → Nx.shortest_path g s t = Some p → NoDup p.
Proof.
  intros Hg Hs Hp. destruct (decide (NoDup p)) as [|Hnd]; [done|]. exfalso.
  pose proof (shortest_path_sound _ _ _ _ Hp) as Hpb.
  destruct (path_between_shortcut g s t p Hpb Hnd) as (p' & Hp' & Hlt).
  destruct (shortest_path_complete g s t p' Hg Hs Hp') as (p0 & Hp0 & _ & Hle).
  rewrite Hp in Hp0. injection Hp0 as <-. lia.
Qed.

Lemma path_between_endpoints g s t p :
  path_between g s t p → p !!! 0 = s ∧ p !!! (length p - 1) = t.
Proof.
  intros (_ & Hh & Hl). rewrite head_lookup in Hh. rewrite last_lookup in Hl.
  apply list_lookup_total_correct in Hh, Hl.
  by replace (pred (length p)) with (length p - 1) in Hl by lia.
Qed.

Lemma elem_of_unique_suspicious_pairs df s t :
  (s, t) ∈ MultihopBackend.unique_suspicious_pairs df ↔
  ∃ path, Nx.shortest_path (MultihopBackend.G df) s t = Some path ∧
          path ∈ MultihopBackend.suspicious_paths df.
Proof.
  unfold MultihopBackend.unique_suspicious_pairs.
  rewrite elem_of_list_to_set, list_elem_of_fmap. split.
  - intros (p & Heq & Hp). exists p. split; [|done].
    apply elem_of_suspicious_paths in Hp as (src & dst & _ & _ & _ & Hsp & _).
    destruct (path_between_endpoints _ _ _ _ (shortest_path_sound _ _ _ _ Hsp)) as [H0 Hl].
    congruence.
  - intros (p & Hsp & Hp). exists p. split; [|done].
    destruct (path_between_endpoints _ _ _ _ (shortest_path_sound _ _ _ _ Hsp)) as [H0 Hl].
    congruence.
Qed.

Lemma path_between_edge g s t : Nx.has_edge g s t → path_between g s t [s; t].
Proof. intros He. split_and!; [|done..]. constructor; [done | constructor]. Qed.

(** X10. A pair of accounts with a direct transfer between them is never a
    multi-hop pair, in neither script; in the dashboard a pair joined through
    one intermediate account is not one either. *)
Theorem multi_hop_pairs_not_adjacent df s t :
  ((s, t) ∈ App.multi_hop_pairs df →
   ¬ connects df s t ∧ ∀ m, ¬ (connects df s m ∧ connects df m t)) ∧
  ((s, t) ∈ MultihopBackend.unique_suspicious_pairs df → ¬ connects df s t).
Proof.
  split.
  - intros (_ & _ & Hmin)%elem_of_multi_hop_pairs. split.
    + intros He%App_has_edge. apply path_between_edge, Hmin in He. simpl in He. lia.
    + intros m [H1%App_has_edge H2%App_has_edge].
      assert (path_between (App.G df) s t [s; m; t]) as Hp.
      { split_and!; [|done..]. repeat (constructor; [done|]). constructor. }
      apply Hmin in Hp. simpl in Hp. lia.
  - intros (p & Hsp & Hp)%elem_of_unique_suspicious_pairs He%Backend_has_edge.
    apply elem_of_suspicious_paths in Hp as (src & dst & Hsrc & _ & _ & Hsp' & Hlen & _).
    pose proof (shortest_path_sound _ _ _ _ Hsp) as (_ & Hh & _).
    pose proof (shortest_path_sound _ _ _ _ Hsp') as (_ & Hh' & _).
    assert (src = s) as -> by congruence.
    destruct (shortest_path_complete _ _ _ _ (Backend_G_well_formed df) Hsrc
                (path_between_edge _ _ _ He)) as (p0 & Hp0 & _ & Hle).
    rewrite Hsp in Hp0. injection Hp0 as <-.
    unfold MultihopBackend.MIN_HOP_LENGTH in Hlen. simpl in Hle. lia.
Qed.

Lemma multi_hop_pairs_not_adjacent_witness :
  ¬ connects (ring (accounts 5)) "0" "3".
Proof.
  apply (proj1 (multi_hop_pairs_not_adjacent (ring (accounts 5)) "0" "3")).
  by_compute.
Defined.

(** X11. Every path the backend records is a path of the graph between two
    distinct accounts that are not directly connected; it has at least three
    nodes, visits no account twice, and no path between the two accounts is
    shorter. *)
Theorem suspicious_paths_are_shortest df path :
  path ∈ MultihopBackend.suspicious_paths df →
  ∃ s t,
    s ≠ t ∧ path_between (MultihopBackend.G df) s t path ∧
    NoDup path ∧ 3 ≤ length path ∧
    (∀ p, path_between (MultihopBackend.G df) s t p → length path ≤ length p) ∧
    ¬ connects df s t.
Proof.
  intros (s & t & Hs & Ht & Hne & Hsp & Hlen & _)%elem_of_suspicious_paths.
  pose proof (Backend_G_well_formed df) as Hg.
  assert (∀ p, path_between (MultihopBackend.G df) s t p → length path ≤ length p) as Hmin.
  { intros p Hp. destruct (shortest_path_complete _ _ _ _ Hg Hs Hp) as (p0 & Hp0 & _ & Hle).
    rewrite Hsp in Hp0. by injection Hp0 as <-. }
  exists s, t. split; [done|]. split; [by apply shortest_path_sound|].
  split; [by apply (shortest_path_NoDup (MultihopBackend.G df) s t)|].
  split; [done|]. split; [done|].
  intros He%Backend_has_edge%path_between_edge%Hmin.
  unfold MultihopBackend.MIN_HOP_LENGTH in Hlen. simpl in He. lia.
Qed.

Lemma suspicious_paths_are_shortest_witness :
  ∃ s t, s ≠ t ∧ path_between (MultihopBackend.G chain3) s t ["A"; "B"; "C"] ∧
         NoDup ["A"; "B"; "C"].
Proof.
  destruct (suspicious_paths_are_shortest chain3 ["A"; "B"; "C"])
    as (s & t & Hne & Hp & Hnd & _); [by_compute|].
  exists s, t. split_and!; [exact Hne | exact Hp | exact Hnd].
Defined.

Lemma suspicious_cell df src dst (y : list Code) :
  y ∈ (if decide (src = dst) then []
       else match Nx.shortest_path (MultihopBackend.G df) src dst with
            | None => []
            | Some path =>
                if decide (length path < MultihopBackend.MIN_HOP_LENGTH) then []
                else if MultihopBackend.within_window
                          (MultihopBackend.edge_dates (MultihopBackend.G df) path)
                then [path] else []
            end) →
  Nx.shortest_path (MultihopBackend.G df) src dst = Some y.
Proof.
  case_decide; [by intros ?%elem_of_nil|].
  destruct (Nx.shortest_path _ src dst) as [p|]; [|by intros ?%elem_of_nil].
  case_decide; [by intros ?%elem_of_nil|].
  destruct (MultihopBackend.within_window _); [|by intros ?%elem_of_nil].
  by intros ->%list_elem_of_singleton.
Qed.

Lemma NoDup_suspicious_cell df src dst :
  NoDup (if decide (src = dst) then []
       else match Nx.shortest_path (MultihopBackend.G df) src dst with
            | None => []
            | Some path =>
                if decide (length path < MultihopBackend.MIN_HOP_LENGTH) then []
                else if MultihopBackend.within_window
                          (MultihopBackend.edge_dates (MultihopBackend.G df) path)
                then [path] else []
            end).
Proof.
  repeat first [case_decide | case_match]; try apply NoDup_nil_2; apply NoDup_singleton.
Qed.

Lemma NoDup_suspicious_paths df : NoDup (MultihopBackend.suspicious_paths df).
Proof.
  pose proof (wf_nodes _ (Backend_G_well_formed df)) as Hnd.
  unfold MultihopBackend.suspicious_paths. apply NoDup_bind; [| |done].
  - intros s1 s2 y _ _ (t1 & H1%suspicious_cell & _)%list_elem_of_bind
      (t2 & H2%suspicious_cell & _)%list_elem_of_bind.
    apply shortest_path_sound in H1 as (_ & H1 & _).
    apply shortest_path_sound in H2 as (_ & H2 & _). congruence.
  - intros s _. apply NoDup_bind; [| |done].
    + intros t1 t2 y _ _ H1%suspicious_cell H2%suspicious_cell.
      apply shortest_path_sound in H1 as (_ & _ & H1).
      apply shortest_path_sound in H2 as (_ & _ & H2). congruence.
    + intros t _. apply NoDup_suspicious_cell.
Qed.

Lemma size_unique_suspicious_pairs df :
  size (MultihopBackend.unique_suspicious_pairs df)
  = length (MultihopBackend.suspicious_paths df).
Proof.
  unfold MultihopBackend.unique_suspicious_pairs.
  rewrite size_list_to_set, length_fmap; [done|].
  apply NoDup_fmap_2_strong; [|apply NoDup_suspicious_paths].
  intros p p' Hp Hp' Heq.
  apply elem_of_suspicious_paths in Hp as (s & t & _ & _ & _ & Hsp & _).
  apply elem_of_suspicious_paths in Hp' as (s' & t' & _ & _ & _ & Hsp' & _).
  destruct (path_between_endpoints _ _ _ _ (shortest_path_sound _ _ _ _ Hsp)) as [H0 Hl].
  destruct (path_between_endpoints _ _ _ _ (shortest_path_sound _ _ _ _ Hsp')) as [H0' Hl'].
  assert (s = s' ∧ t = t') as [-> ->] by (split; congruence). congruence.
Qed.

(** X12. The backend records at most one path per ordered pair of accounts:
    no path is recorded twice, and the suspicious pairs are as many as the
    recorded paths. *)
Theorem one_path_per_pair df :
  NoDup (MultihopBackend.suspicious_paths df) ∧
  size (MultihopBackend.unique_suspicious_pairs df)
    = length (MultihopBackend.suspicious_paths df) ∧
  (∀ p p', p ∈ MultihopBackend.suspicious_paths df →
           p' ∈ MultihopBackend.suspicious_paths df →
           head p = head p' → last p = last p' → p = p').
Proof.
  split_and!; [apply NoDup_suspicious_paths | apply size_unique_suspicious_pairs |].
  intros p p' Hp Hp' Hh Hl.
  apply elem_of_suspicious_paths in Hp as (s & t & _ & _ & _ & Hsp & _).
  apply elem_of_suspicious_paths in Hp' as (s' & t' & _ & _ & _ & Hsp' & _).
  pose proof (shortest_path_sound _ _ _ _ Hsp) as (_ & H1 & H2).
  pose proof (shortest_path_sound _ _ _ _ Hsp') as (_ & H1' & H2').
  assert (s = s' ∧ t = t') as [-> ->] by (split; congruence). congruence.
Qed.

Lemma suspicious_paths_nil_of_no_edges df :
  MultihopBackend.total_transactions df = 0 → MultihopBackend.suspicious_paths df = [].
Proof.
  intros H0. destruct (MultihopBackend.suspicious_paths df) as [|p ps] eqn:Hps; [done|].
  exfalso. assert (p ∈ MultihopBackend.suspicious_paths df) as Hp by (rewrite Hps; left).
  apply elem_of_suspicious_paths in Hp as (s & t & _ & _ & Hne & Hsp & _).
  apply shortest_path_sound in Hsp as (Hw & Hh & Hl).
  unfold MultihopBackend.total_transactions, Nx.number_of_edges in H0.
  destruct Hw as [a|a b q Hab _]; simpl in *; [congruence|].
  unfold Nx.has_edge, Nx.edge_pairs in Hab.
  destruct (Nx.edges (MultihopBackend.G df)); [by apply elem_of_nil in Hab | done].
Qed.

(** X13. The backend never fails. It returns the number of graph edges, the
    recorded paths, one suspicious pair per recorded path, and the rate, which
    is never negative and is 0 exactly when no path is recorded. *)
Theorem detect_returns df :
  ∃ rate,
    MultihopBackend.detect_suspicious_multihop_transfers df
    = Ok {| MultihopBackend.o_total_transactions := MultihopBackend.total_transactions df;
            MultihopBackend.o_suspicious_multihop_paths :=
              MultihopBackend.suspicious_paths df;
            MultihopBackend.o_unique_suspicious_pairs :=
              elements (MultihopBackend.unique_suspicious_pairs df);
            MultihopBackend.o_multihop_suspicion_rate := rate |} ∧
    length (elements (MultihopBackend.unique_suspicious_pairs df))
      = length (MultihopBackend.suspicious_paths df) ∧
    NoDup (elements (MultihopBackend.unique_suspicious_pairs df)) ∧
    (0 <= rate)%Q ∧
    ((rate == 0)%Q ↔ MultihopBackend.suspicious_paths df = []).
Proof.
  unfold MultihopBackend.detect_suspicious_multihop_transfers,
    MultihopBackend.suspicious_rate.
  pose proof (size_unique_suspicious_pairs df) as Hsize.
  destruct (decide (0 < MultihopBackend.total_transactions df)) as [Hpos|Hzero].
  - rewrite py_div_Ok by done. eexists. split; [done|].
    split; [by rewrite <- Hsize|]. split; [apply NoDup_elements|].
    split; [unfold ratio, Qle; simpl; lia|].
    rewrite ratio_eq_0, Hsize by done. by destruct (MultihopBackend.suspicious_paths df).
  - exists 0%Q. split; [done|].
    split; [by rewrite <- Hsize|]. split; [apply NoDup_elements|]. split; [done|].
    split; [intros _; apply suspicious_paths_nil_of_no_edges; lia | done].
Qed.

(** ** Cycles *)

Lemma on_cycle_elem_of_cycle_edges df c u v :
  simple_cycle (App.G df) c → on_cycle c u v → (u, v) ∈ App.cycle_edges df.
Proof.
  intros Hc Hon. apply elem_of_cycle_edges.
  destruct (simple_cycles_complete (App.G df) c) as (c' & Hc' & Hrot);
    [apply App_G_well_formed | done |].
  exists c'. split; [done|]. by eapply on_cycle_rotation.
Qed.

Lemma cycles_nil_iff df : App.cycles df = [] ↔ ¬ ∃ c, simple_cycle (App.G df) c.
Proof.
  split.
  - intros Hnil [c Hc].
    destruct (simple_cycles_complete (App.G df) c) as (c' & Hc' & _);
      [apply App_G_well_formed | done |].
    unfold App.cycles in Hnil. rewrite Hnil in Hc'. by apply elem_of_nil in Hc'.
  - intros Hno. destruct (App.cycles df) as [|c cs] eqn:Hcs; [done|].
    destruct Hno. exists c. apply simple_cycles_sound.
    unfold App.cycles in Hcs. rewrite Hcs. left.
Qed.

Lemma cycle_edges_empty_iff df :
  size (App.cycle_edges df) = 0 ↔ ¬ ∃ c, simple_cycle (App.G df) c.
Proof.
  rewrite size_empty_iff. split.
  - intros Hempty [c Hc]. pose proof Hc as (_ & _ & a & b & Ha & Hb & _).
    assert ((b, a) ∈ App.cycle_edges df) as Hin
      by (apply (on_cycle_elem_of_cycle_edges df c); [done | by right]).
    rewrite Hempty in Hin. by apply not_elem_of_empty in Hin.
  - intros Hno [u v]. split; [|by intros ?%not_elem_of_empty].
    intros (c & Hc%simple_cycles_sound & _)%elem_of_cycle_edges. destruct Hno. by exists c.
Qed.

(** X14. [circular_rate] is 0 exactly when the graph has no simple cycle, and
    on a non-empty ledger it is 1 exactly when every transfer lies on a simple
    cycle. *)
Theorem circular_rate_extremes df :
  ∃ q, App.circular_rate df = Ok q ∧
       ((q == 0)%Q ↔ ¬ ∃ c, simple_cycle (App.G df) c) ∧
       (App.cycles df = [] ↔ ¬ ∃ c, simple_cycle (App.G df) c) ∧
       (df ≠ [] →
        ((q == 1)%Q ↔
         ∀ u v, connects df u v → ∃ c, simple_cycle (App.G df) c ∧ on_cycle c u v)).
Proof.
  unfold App.circular_rate.
  destruct (decide (App.total_edges df ≠ 0)) as [Hpos|Hzero].
  - rewrite py_div_Ok by lia. eexists. split; [done|].
    split; [rewrite ratio_eq_0 by lia; apply cycle_edges_empty_iff|].
    split; [apply cycles_nil_iff|]. intros _. rewrite ratio_eq_1 by lia. split.
    + intros Hsize u v Huv%App_has_edge.
      assert (App.cycle_edges df = list_to_set (Nx.edge_pairs (App.G df))) as Heq.
      { apply set_subseteq_size_eq.
        - intros [a b] Hab%cycle_edges_has_edge. by apply elem_of_list_to_set.
        - rewrite <- App_total_edges_size. lia. }
      assert ((u, v) ∈ App.cycle_edges df) as Hin
        by (rewrite Heq; by apply elem_of_list_to_set).
      apply elem_of_cycle_edges in Hin as (c & Hc%simple_cycles_sound & Hon). by exists c.
    + intros Hall. rewrite App_total_edges_size. f_equal. apply set_eq. intros [u v].
      rewrite elem_of_list_to_set. split; [apply cycle_edges_has_edge|].
      intros (c & Hc & Hon)%App_has_edge%Hall. by eapply on_cycle_elem_of_cycle_edges.
  - assert (df = []) as ->.
    { destruct df as [|r df]; [done|]. exfalso. apply Hzero.
      assert (Nx.has_edge (App.G (r :: df)) (source_code r) (destination_code r)) as He.
      { apply App_has_edge. exists r. split; [left | done]. }
      unfold App.total_edges, Nx.number_of_edges, Nx.has_edge, Nx.edge_pairs in *.
      destruct (Nx.edges (App.G (r :: df))); [by apply elem_of_nil in He | done]. }
    exists 0%Q. split; [done|].
    assert (¬ ∃ c, simple_cycle (App.G []) c) as Hno.
    { intros (c & _ & _ & a & b & _ & _ & He). by apply elem_of_nil in He. }
    split_and!; [done | done | done].
Qed.

(** X15. Two accounts that transfer to each other form a cycle: both edges
    are in [cycle_edges]. *)
Theorem reciprocal_transfers_are_circular df a b :
  connects df a b → connects df b a →
  (a, b) ∈ App.cycle_edges df ∧ (b, a) ∈ App.cycle_edges df.
Proof.
  intros Hab%App_has_edge Hba%App_has_edge.
  destruct (decide (a = b)) as [->|Hne].
  - assert ((b, b) ∈ App.cycle_edges df); [|done].
    apply (on_cycle_elem_of_cycle_edges df [b]); [|by right].
    split_and!; [apply NoDup_singleton | constructor | by exists b, b].
  - assert (simple_cycle (App.G df) [a; b]) as Hc.
    { split_and!.
      - apply NoDup_cons. split; [by intros ->%list_elem_of_singleton|]. apply NoDup_singleton.
      - constructor; [done | constructor].
      - by exists a, b. }
    split; apply (on_cycle_elem_of_cycle_edges df [a; b]); [done| |done|].
    + left. by exists [], [].
    + by right.
Qed.

Lemma reciprocal_transfers_are_circular_witness :
  ("A", "B") ∈ App.cycle_edges [tx "A" "B" 10 1; tx "B" "A" 10 2] ∧
  ("B", "A") ∈ App.cycle_edges [tx "A" "B" 10 1; tx "B" "A" 10 2].
Proof.
  apply reciprocal_transfers_are_circular.
  - exists (tx "A" "B" 10 1). split; [left | done].
  - exists (tx "B" "A" 10 2). split; [right; left | done].
Defined.

(** ** Rates that are not proportions *)

(** X16. The two multi-hop rates are never negative, but they are not
    proportions: each can exceed 1, and so can the final rate. *)
Theorem multi_hop_rates_exceed_one :
  (∀ df q, App.multi_hop_rate df = Ok q → (0 <= q)%Q) ∧
  ¬ (∀ df q, App.multi_hop_rate df = Ok q → (q <= 1)%Q) ∧
  ¬ (∀ df q, MultihopBackend.suspicious_rate df = Ok q → (q <= 1)%Q) ∧
  ¬ (∀ df m, App.main df = Ok m → (App.m_hawala_rate m <= 1)%Q).
Proof.
  split_and!.
  - intros df q Hq. destruct (multi_hop_rate_Ok df) as (q' & Hq' & Hpos). congruence.
  - intros H. specialize (H (chain (accounts 10))). vm_compute in H.
    by specialize (H _ eq_refl eq_refl).
  - intros H. specialize (H (chain (accounts 10))). vm_compute in H.
    by specialize (H _ eq_refl eq_refl).
  - intros H. specialize (H (chain (accounts 10))). vm_compute in H.
    by specialize (H _ eq_refl eq_refl).
Qed.

(** ** Ledgers without indirect routes *)




(** ** Ledgers inside one time window *)

Lemma edge_dates_from_frame (dfall : list Row) attr g df :
  (∀ r, Nx.date (attr r) = Some (date r)) →
  (∀ r, r ∈ df → r ∈ dfall) →
  Forall (λ e, ∀ d, Nx.date e.2 = Some d → ∃ r, r ∈ dfall ∧ date r = d) (Nx.edges g) →
  Forall (λ e, ∀ d, Nx.date e.2 = Some d → ∃ r, r ∈ dfall ∧ date r = d)
    (Nx.edges (from_frame attr g df)).
Proof.
  intros Hattr. revert g. induction df as [|row df IH]; intros g Hsub Hg; [done|].
  rewrite from_frame_cons. apply IH; [intros r Hr; apply Hsub; by right|]. simpl.
  assert (row ∈ dfall) as Hrow by (apply Hsub; left).
  generalize (source_code row), (destination_code row). intros u v.
  induction Hg as [|[[u' v'] e] es He Hes IHes]; simpl.
  - apply Forall_singleton. simpl. intros d. rewrite Hattr. intros [= <-]. by exists row.
  - case_decide; constructor; try done. simpl. intros d. rewrite Hattr.
    intros [= <-]. by exists row.
Qed.

Lemma elem_of_edge_dates df path x :
  x ∈ MultihopBackend.edge_dates (MultihopBackend.G df) path → ∃ r, r ∈ df ∧ date r = x.
Proof.
  unfold MultihopBackend.edge_dates. intros (i & Hx & _)%list_elem_of_bind.
  destruct (Nx.get_edge_data _ _ _) as [e|] eqn:He; [|by apply elem_of_nil in Hx].
  destruct (Nx.date e) as [d|] eqn:Hd; [|by apply elem_of_nil in Hx].
  apply list_elem_of_singleton in Hx as ->.
  pose proof (edge_dates_from_frame df
    (λ r, {| Nx.amount := Some (cc1_lcu_amount r); Nx.date := Some (date r) |})
    Nx.empty df (λ _, eq_refl) (λ _ H, H) (Forall_nil_2 _)) as Hall.
  rewrite <- Backend_G_from_frame in Hall. revert He Hd.
  generalize (path !!! i), (path !!! (i + 1)). intros u v.
  induction Hall as [|[[u' v'] e'] es He' Hes IH]; simpl; [done|].
  case_decide; [|done]. intros [= ->] Hd. by apply He'.
Qed.

(** X18. When all the transfers of the ledger lie less than 8 days apart, the
    time window excludes nothing: the backend records the shortest path of
    every pair of distinct accounts whose shortest path has at least three
    nodes, and every multi-hop pair of the dashboard is a suspicious pair of
    the backend. *)
Theorem narrow_ledger_pairs df :
  (∀ r r', r ∈ df → r' ∈ df → (date r - date r' < 8 * Pd.ns_per_day)%Z) →
  (∀ s t path,
     s ≠ t → Nx.shortest_path (MultihopBackend.G df) s t = Some path →
     3 ≤ length path → path ∈ MultihopBackend.suspicious_paths df) ∧
  (∀ s t, (s, t) ∈ App.multi_hop_pairs df →
          (s, t) ∈ MultihopBackend.unique_suspicious_pairs df).
Proof.
  intros Hnarrow.
  assert (∀ s t path,
     s ≠ t → Nx.shortest_path (MultihopBackend.G df) s t = Some path →
     3 ≤ length path → path ∈ MultihopBackend.suspicious_paths df) as Hall.
  { intros s t path Hne Hsp Hlen.
    pose proof (shortest_path_sound _ _ _ _ Hsp) as Hpb.
    destruct (path_between_nodes _ _ _ _ (Backend_G_well_formed df) Hpb Hne) as [Hs Ht].
    apply elem_of_suspicious_paths. exists s, t. split_and!; [done..|].
    destruct Hpb as (Hw & _ & _).
    pose proof (length_edge_dates _ _ Hw (dated_Backend_G df)) as Hdates.
    destruct (MultihopBackend.edge_dates _ path) as [|d ds] eqn:Hed;
      [simpl in Hdates; lia|].
    simpl. apply bool_decide_eq_true, days_le_iff.
    destruct (py_max_spec d ds) as [Hmax _], (py_min_spec d ds) as [Hmin _].
    rewrite <- Hed in Hmax, Hmin.
    apply elem_of_edge_dates in Hmax as (r & Hr & <-).
    apply elem_of_edge_dates in Hmin as (r' & Hr' & <-). by apply Hnarrow. }
  split; [done|].
  intros s t (Hne & [p Hp] & Hmin)%elem_of_multi_hop_pairs.
  destruct (path_between_nodes _ _ _ _ (App_G_well_formed df) Hp Hne) as [Hs _].
  destruct (shortest_path_complete _ _ _ _ (App_G_well_formed df) Hs Hp)
    as (p0 & Hp0 & Hpb0%Hmin & _).
  rewrite <- same_shortest_path in Hp0.
  apply elem_of_unique_suspicious_pairs. exists p0. split; [done|].
  apply (Hall s t); [done | done | lia].
Qed.

Lemma narrow_ledger_pairs_witness :
  ("0", "3") ∈ MultihopBackend.unique_suspicious_pairs (chain (accounts 4)).
Proof.
  apply (narrow_ledger_pairs (chain (accounts 4))); [|by_compute].
  intros r r' Hr Hr'.
  change (chain (accounts 4))
    with [tx "0" "1" 10 1; tx "1" "2" 10 1; tx "2" "3" 10 1] in Hr, Hr'.
  assert (date r = Pd.ns_per_day ∧ date r' = Pd.ns_per_day) as [-> ->]; [|done].
  split; [clear Hr'; revert Hr | clear Hr; revert Hr'];
    rewrite !elem_of_cons, elem_of_nil; intros [->|[->|[->|[]]]]; done.
Defined.

(** ** Time evolution *)

#[global] Instance key_le_total {A : Type} : Total (@Pd.key_le A).
Proof. intros a b. unfold Pd.key_le. apply String.leb_total. Qed.

#[global] Instance key_le_trans {A : Type} : Transitive (@Pd.key_le A).
Proof.
  intros a b c. unfold Pd.key_le. intros H1%Is_true_true H2%Is_true_true.
  apply Is_true_true. by trans b.1.
Qed.

Lemma sort_index_Permutation {A} (s : list (string * A)) : Pd.sort_index s ≡ₚ s.
Proof. apply merge_sort_Permutation. Qed.

Lemma sort_index_sorted {A} (s : list (string * A)) :
  StronglySorted Pd.key_le (Pd.sort_index s).
Proof. apply (StronglySorted_merge_sort _). Qed.

Lemma sort_index_keys {A} (s : list (string * A)) :
  StronglySorted String.le (Pd.sort_index s).*1.
Proof.
  apply (StronglySorted_fmap _ Pd.key_le); [|apply sort_index_sorted].
  intros a b H. by apply Is_true_true.
Qed.

Lemma filter_all {A} (P : A → Prop) `{!∀ x, Decision (P x)} (l : list A) :
  (∀ x, P x) → filter P l = l.
Proof.
  intros HP. induction l as [|a l IH]; [done|].
  by rewrite filter_cons, decide_True, IH.
Qed.

Lemma sum_groupby_size {K} `{EqDecision K} (key : Row → K) df :
  sum_list (Pd.groupby_size key df).*2 = length df.
Proof.
  pose proof (length_filter_by_key key (λ _, true) (Pd.unique key df) df) as Hsum.
  rewrite !filter_all in Hsum by done. rewrite Hsum.
  - f_equal. unfold Pd.groupby_size, Pd.groupby. by rewrite <- !list_fmap_compose.
  - apply NoDup_remove_dups.
  - intros r Hr. apply elem_of_remove_dups, list_elem_of_fmap. by exists r.
Qed.

Lemma nunique_le_length {K} `{EqDecision K} (key : Row → K) df :
  Pd.nunique key df ≤ length df.
Proof.
  unfold Pd.nunique, Pd.unique. rewrite <- (length_fmap key df).
  apply submseteq_length, NoDup_submseteq; [apply NoDup_remove_dups|].
  intros x. by rewrite elem_of_remove_dups.
Qed.

Lemma groupby_keys {K} `{EqDecision K} (key : Row → K) df :
  (Pd.groupby key df).*1 = Pd.unique key df.
Proof.
  unfold Pd.groupby. rewrite <- list_fmap_compose.
  rewrite (list_fmap_ext _ id (Pd.unique key df)) by done. apply list_fmap_id.
Qed.

Lemma elem_of_unique {K} `{EqDecision K} (key : Row → K) df k :
  k ∈ Pd.unique key df ↔ ∃ r, r ∈ df ∧ key r = k.
Proof.
  unfold Pd.unique. rewrite elem_of_remove_dups, list_elem_of_fmap. naive_solver.
Qed.

Lemma elem_of_monthly_volume df m n :
  (m, n) ∈ App.monthly_volume df ↔
  n = length (filter (λ r, App.month r = m) df) ∧ ∃ r, r ∈ df ∧ App.month r = m.
Proof.
  unfold App.monthly_volume. rewrite sort_index_Permutation. apply elem_of_groupby_size.
Qed.

Lemma elem_of_monthly_corridors df m c :
  (m, c) ∈ App.monthly_corridors df ↔
  c = Pd.nunique App.corridor (filter (λ r, App.month r = m) df) ∧
  ∃ r, r ∈ df ∧ App.month r = m.
Proof.
  unfold App.monthly_corridors. rewrite sort_index_Permutation.
  unfold Pd.groupby. rewrite <- list_fmap_compose, list_elem_of_fmap.
  setoid_rewrite elem_of_unique. split.
  - intros (k & [= -> ->] & Hk). done.
  - intros (-> & Hm). by exists m.
Qed.

Lemma sum_list_fmap_le {A} (f h : A → nat) (l : list A) :
  (∀ x, f x ≤ h x) → sum_list (f <$> l) ≤ sum_list (h <$> l).
Proof.
  intros Hle. induction l as [|a l IH]; csimpl; [done|]. specialize (Hle a). lia.
Qed.

Lemma nunique_le_sum_groups {K1 K2} `{EqDecision K1, EqDecision K2}
    (key : Row → K1) (by_key : Row → K2) df :
  Pd.nunique key df ≤
  sum_list ((λ m, Pd.nunique key (Pd.get_group by_key df m)) <$> Pd.unique by_key df).
Proof.
  assert ((λ m, Pd.nunique key (Pd.get_group by_key df m)) <$> Pd.unique by_key df
          = length <$> ((λ m, Pd.unique key (Pd.get_group by_key df m))
                        <$> Pd.unique by_key df)) as ->
    by (by rewrite <- list_fmap_compose).
  rewrite <- length_join. unfold Pd.nunique.
  apply submseteq_length, NoDup_submseteq; [apply NoDup_remove_dups|].
  intros k (r & Hr & <-)%elem_of_unique.
  apply list_elem_of_join. exists (Pd.unique key (Pd.get_group by_key df (by_key r))). split.
  - apply elem_of_unique. exists r. split; [|done]. by apply list_elem_of_filter.
  - apply list_elem_of_fmap. exists (by_key r). split; [done|].
    apply elem_of_unique. by exists r.
Qed.

(** The calendar yields months between 1 and 12 and days between 1 and 31. *)
Lemma civil_from_days_range z :
  let '(y, m, d) := Pd.civil_from_days z in (1 ≤ m ≤ 12)%Z ∧ (1 ≤ d ≤ 31)%Z.
Proof.
  unfold Pd.civil_from_days.
  set (z' := (z + 719468)%Z). set (era := (z' / 146097)%Z).
  set (doe := (z' - era * 146097)%Z).
  assert (0 ≤ doe ≤ 146096)%Z as Hdoe.
  { subst doe era. pose proof (Z.div_mod z' 146097). pose proof (Z.mod_pos_bound z' 146097). lia. }
  clearbody doe. clear z' era.
  set (yoe := ((doe - doe / 1460 + doe / 36524 - doe / 146096) / 365)%Z).
  set (doy := (doe - (365 * yoe + yoe / 4 - yoe / 100))%Z).
  assert (0 ≤ doy ≤ 365)%Z as Hdoy.
  { subst doy yoe. Z.to_euclidean_division_equations. lia. }
  clearbody doy. clear yoe Hdoe doe.
  set (mp := ((5 * doy + 2) / 153)%Z).
  assert (0 ≤ mp ≤ 11)%Z as Hmp by (subst mp; Z.to_euclidean_division_equations; lia).
  assert (1 ≤ doy - (153 * mp + 2) / 5 + 1 ≤ 31)%Z as Hd
    by (subst mp; Z.to_euclidean_division_equations; lia).
  clearbody mp. split; [case_decide; lia | done].
Qed.

Lemma month_format row :
  ∃ y m, App.month row = Pd.period_str (y, m) ∧ (1 ≤ m ≤ 12)%Z.
Proof.
  unfold App.month, Pd.to_period_M.
  pose proof (civil_from_days_range (date row / Pd.ns_per_day)) as Hrange.
  destruct (Pd.civil_from_days _) as [[y m] d]. exists y, m. by destruct Hrange.
Qed.

(** X19. [monthly_volume] has one entry per month in which the ledger has a
    transfer, in the order of the month keys, which are of the form
    year-month with a month from 1 to 12; the entry of a month is the number
    of its transfers, and the entries add up to the number of rows. *)
Theorem monthly_volume_spec df :
  StronglySorted Pd.key_le (App.monthly_volume df) ∧
  NoDup (App.monthly_volume df).*1 ∧
  (∀ m n, (m, n) ∈ App.monthly_volume df ↔
          n = length (filter (λ r, App.month r = m) df) ∧
          ∃ r, r ∈ df ∧ App.month r = m) ∧
  (∀ m n, (m, n) ∈ App.monthly_volume df →
          ∃ y mo, m = Pd.period_str (y, mo) ∧ (1 ≤ mo ≤ 12)%Z) ∧
  sum_list (App.monthly_volume df).*2 = length df.
Proof.
  split; [apply sort_index_sorted|]. split; [|split; [apply elem_of_monthly_volume|split]].
  - unfold App.monthly_volume. rewrite sort_index_Permutation.
    apply NoDup_groupby_size_keys.
  - intros m n (_ & r & _ & <-)%elem_of_monthly_volume. apply month_format.
  - unfold App.monthly_volume. rewrite sort_index_Permutation. apply sum_groupby_size.
Qed.

(** X20. [monthly_corridors] has the same months as [monthly_volume], in the
    same order. The entry of a month is the number of distinct corridors among
    its transfers: at least 1 and at most the month's volume. The entries add
    up to at least the number of distinct corridors of the ledger and to at
    most its number of rows. *)
Theorem monthly_corridors_spec df :
  (App.monthly_corridors df).*1 = (App.monthly_volume df).*1 ∧
  (∀ m c, (m, c) ∈ App.monthly_corridors df ↔
          c = Pd.nunique App.corridor (filter (λ r, App.month r = m) df) ∧
          ∃ r, r ∈ df ∧ App.month r = m) ∧
  (∀ m c, (m, c) ∈ App.monthly_corridors df →
          ∃ n, (m, n) ∈ App.monthly_volume df ∧ 1 ≤ c ∧ c ≤ n) ∧
  Pd.nunique App.corridor df ≤ sum_list (App.monthly_corridors df).*2 ∧
  sum_list (App.monthly_corridors df).*2 ≤ length df.
Proof.
  assert ((App.monthly_corridors df).*2
          ≡ₚ (λ m, Pd.nunique App.corridor (Pd.get_group App.month df m))
             <$> Pd.unique App.month df) as Hcounts.
  { unfold App.monthly_corridors. rewrite sort_index_Permutation.
    unfold Pd.groupby. by rewrite <- !list_fmap_compose. }
  split_and!.
  - apply (StronglySorted_unique String.le); [apply sort_index_keys..|].
    unfold App.monthly_corridors, App.monthly_volume.
    rewrite !sort_index_Permutation. unfold Pd.groupby_size.
    by rewrite <- !list_fmap_compose.
  - apply elem_of_monthly_corridors.
  - intros m c [-> (r & Hr & Hm)]%elem_of_monthly_corridors.
    exists (length (filter (λ r, App.month r = m) df)). split_and!.
    + apply elem_of_monthly_volume. split; [done | by exists r].
    + apply (nunique_pos App.corridor).
      intros Hnil. assert (r ∈ filter (λ r, App.month r = m) df) as Hin
        by (by apply list_elem_of_filter).
      rewrite Hnil in Hin. by apply elem_of_nil in Hin.
    + apply nunique_le_length.
  - rewrite Hcounts. apply nunique_le_sum_groups.
  - rewrite Hcounts. rewrite <- (sum_groupby_size App.month df).
    unfold Pd.groupby_size, Pd.groupby. rewrite <- !list_fmap_compose.
    apply sum_list_fmap_le. intros m. apply nunique_le_length.
Qed.

(** ** The order of the rows *)

Lemma walk_has_edge_iff g g' p :
  (∀ u v, Nx.has_edge g u v → Nx.has_edge g' u v) → walk g p → walk g' p.
Proof. intros He. induction 1; constructor; auto. Qed.

Lemma App_walk_connects df df' p :
  (∀ u v, connects df u v → connects df' u v) → walk (App.G df) p → walk (App.G df') p.
Proof.
  intros Hc. apply walk_has_edge_iff. intros u v. rewrite !App_has_edge. apply Hc.
Qed.

Lemma connects_Permutation df df' u v : df ≡ₚ df' → connects df u v → connects df' u v.
Proof. intros Hperm (r & Hr & Hu & Hv). exists r. by rewrite <- Hperm. Qed.

Lemma multi_hop_pairs_connects df df' :
  (∀ u v, connects df u v ↔ connects df' u v) →
  App.multi_hop_pairs df = App.multi_hop_pairs df'.
Proof.
  intros Hc.
  assert (∀ s t p, path_between (App.G df) s t p ↔ path_between (App.G df') s t p) as Hp.
  { intros s t p. unfold path_between.
    split; intros (Hw & ? & ?); (split_and!; [|done..]);
      (eapply App_walk_connects; [|done]); intros u v; by rewrite Hc. }
  apply set_eq. intros [s t]. rewrite !elem_of_multi_hop_pairs.
  split; intros (Hne & [p Hp'] & Hmin);
    (split; [done|]; split; [exists p; by apply Hp|]; intros p0 Hp0; apply Hmin; by apply Hp).
Qed.

Lemma cycle_edges_connects df df' :
  (∀ u v, connects df u v ↔ connects df' u v) →
  App.cycle_edges df = App.cycle_edges df'.
Proof.
  assert (∀ df df', (∀ u v, connects df u v ↔ connects df' u v) →
                    ∀ e, e ∈ App.cycle_edges df → e ∈ App.cycle_edges df') as Hsub.
  { clear. intros df df' Hc [u v] (c & Hc'%simple_cycles_sound & Hon)%elem_of_cycle_edges.
    apply (on_cycle_elem_of_cycle_edges df' c); [|done].
    destruct Hc' as (Hnd & Hw & a & b & Ha & Hb & He). split_and!; [done| |].
    - eapply App_walk_connects; [|done]. intros ? ?. by rewrite Hc.
    - exists a, b. split_and!; [done..|]. apply App_has_edge, Hc. by apply App_has_edge. }
  intros Hc. apply set_eq. intros e. split; apply Hsub; [done|]. intros u v. by rewrite Hc.
Qed.

Lemma total_edges_connects df df' :
  (∀ u v, connects df u v ↔ connects df' u v) → App.total_edges df = App.total_edges df'.
Proof.
  intros Hc. rewrite !App_total_edges_size. f_equal. apply set_eq. intros [u v].
  rewrite !elem_of_list_to_set.
  change ((u, v) ∈ Nx.edge_pairs (App.G df)) with (Nx.has_edge (App.G df) u v).
  change ((u, v) ∈ Nx.edge_pairs (App.G df')) with (Nx.has_edge (App.G df') u v).
  by rewrite !App_has_edge.
Qed.

Lemma nunique_Permutation {K} `{EqDecision K} (key : Row → K) df df' :
  df ≡ₚ df' → Pd.nunique key df = Pd.nunique key df'.
Proof.
  intros Hperm. unfold Pd.nunique, Pd.unique. apply Permutation_length.
  apply NoDup_Permutation; [apply NoDup_remove_dups..|].
  intros k. rewrite !elem_of_remove_dups. by rewrite Hperm.
Qed.

Lemma length_mirrored_df_Permutation df df' :
  df ≡ₚ df' → length (App.mirrored_df df) = length (App.mirrored_df df').
Proof.
  intros Hperm. unfold App.mirrored_df, Pd.groupby_filter.
  rewrite (list_filter_iff _
    (λ r, bool_decide (3 < length (Pd.get_group App.rounded_amount df' (App.rounded_amount r)))
          = true)).
  - by rewrite Hperm.
  - intros r. rewrite !bool_decide_eq_true.
    assert (length (Pd.get_group App.rounded_amount df (App.rounded_amount r))
            = length (Pd.get_group App.rounded_amount df' (App.rounded_amount r))) as ->;
      [|done].
    apply Permutation_length. unfold Pd.get_group. by rewrite Hperm.
Qed.

(** X21. The dashboard does not depend on the order of the rows: two ledgers
    with the same rows in a different order give the same multi-hop pairs, the
    same cycle edges and the same result, rate for rate. The structural sets
    do not even depend on how often a transfer is repeated. *)
Theorem main_order_independent df df' :
  df ≡ₚ df' →
  App.multi_hop_pairs df = App.multi_hop_pairs df' ∧
  App.cycle_edges df = App.cycle_edges df' ∧
  App.main df = App.main df' ∧
  (∀ df'', (∀ u v, connects df u v ↔ connects df'' u v) →
     App.multi_hop_pairs df = App.multi_hop_pairs df'' ∧
     App.cycle_edges df = App.cycle_edges df'' ∧
     App.multi_hop_rate df = App.multi_hop_rate df'' ∧
     App.circular_rate df = App.circular_rate df'').
Proof.
  intros Hperm.
  assert (∀ df'', (∀ u v, connects df u v ↔ connects df'' u v) →
     App.multi_hop_pairs df = App.multi_hop_pairs df'' ∧
     App.cycle_edges df = App.cycle_edges df'' ∧
     App.multi_hop_rate df = App.multi_hop_rate df'' ∧
     App.circular_rate df = App.circular_rate df'') as Hstruct.
  { intros df'' Hc. unfold App.multi_hop_rate, App.circular_rate.
    by rewrite (multi_hop_pairs_connects df df''), (cycle_edges_connects df df''),
      (total_edges_connects df df''). }
  destruct (Hstruct df') as (Hmh & Hce & Hmhr & Hcr).
  { intros u v. split; apply connects_Permutation; [done | by symmetry]. }
  split_and!; [done | done | | done].
  unfold App.main, App.mirrored_rate, App.corridor_rate.
  by rewrite Hmhr, Hcr, (length_mirrored_df_Permutation df df'), (Permutation_length Hperm),
    !length_corridor_counts, (nunique_Permutation App.corridor df df').
Qed.

Lemma main_order_independent_witness : App.main ring3 = App.main (reverse ring3).
Proof.
  apply (main_order_independent ring3 (reverse ring3)).
  symmetry. apply reverse_Permutation.
Defined.
